(** * Set-relationship routines of [cupy/_logic/truth.py]

    A shallow embedding of [all], [any], [in1d], [intersect1d], [isin] and
    [union1d], with the array primitives they compose ([cupy.sort],
    [cupy.argsort], [cupy.searchsorted], [cupy.unique], [cupy.concatenate],
    gather by an index array, boolean-mask selection, [ravel], [reshape]).

    The routines are modelled twice: on values, where an array is its
    elements, for what they compute; and over a store of buffers
    ([Module Store]), where an array is an object that points into device
    memory, for what they write.  The second model is proved to compute
    what the first computes.

    Conventions.
    - An n-dimensional array is a record of a shape and its elements in
      C order; a 1-D array is the plain list of its elements, so that
      [x.size] is [length x] and [x.shape] is [(length x,)].
    - Elements are integers ([Z]): the routines only compare elements, and
      the order is total (no NaN).
    - Index arrays hold [Z] (int64 in the source; array sizes are far
      below 2^63, so no wrap-around is reachable and none is modelled).
    - A Python exception is the left injection of the [py] monad. *)

From Stdlib Require Import String.
From Stdlib Require Import ZArith List Bool Lia Permutation Sorted PeanoNat.
Import ListNotations.
Open Scope Z_scope.
Open Scope list_scope.

Set Implicit Arguments.

(** ** Exceptions and the error monad *)

Inductive exn : Type :=
| NotImplementedError (msg : string)
| IndexError
| ValueError
| TypeError
| UnboundLocalError.

Definition py (A : Type) : Type := (exn + A)%type.

Definition ret {A} (a : A) : py A := inr a.
Definition raise {A} (e : exn) : py A := inl e.
Definition bind {A B} (c : py A) (k : A -> py B) : py B :=
  match c with
  | inl e => inl e
  | inr a => k a
  end.

Notation "x <- c ;; k" := (bind c (fun x => k))
  (at level 61, c at next level, right associativity).

(** ** Arrays *)

Record ndarray (A : Type) : Type := NDArray {
  shape : list nat;
  data : list A
}.

Definition size_of_shape (s : list nat) : nat := fold_right Nat.mul 1%nat s.

(** The arrays a caller can build: as many elements as the shape says. *)
Definition wf_ndarray {A} (a : ndarray A) : Prop :=
  size_of_shape (shape a) = length (data a).

(** [a.ravel()]: the elements in C order, as a 1-D array. *)
Definition ravel {A} (a : ndarray A) : list A := data a.

(** [x.reshape(s)] on a 1-D array: [ValueError] unless the sizes agree. *)
Definition reshape {A} (x : list A) (s : list nat) : py (ndarray A) :=
  if Nat.eqb (size_of_shape s) (length x) then ret (NDArray s x)
  else raise ValueError.

(** [cupy.zeros(shape, bool_)] and [cupy.ones(shape, bool_)] for the shape
    [(n,)] of a 1-D array. *)
Definition zeros (n : nat) : list bool := repeat false n.
Definition ones (n : nat) : list bool := repeat true n.

(** Element-wise binary operation on two 1-D arrays of one length. *)
Fixpoint zip_with {A B C} (f : A -> B -> C) (x : list A) (y : list B) : list C :=
  match x, y with
  | a :: x', b :: y' => f a b :: zip_with f x' y'
  | _, _ => []
  end.

(** [x[mask]] for a boolean mask of the length of [x]. *)
Fixpoint compress {A} (mask : list bool) (x : list A) : list A :=
  match mask, x with
  | m :: mask', a :: x' => if m then a :: compress mask' x' else compress mask' x'
  | _, _ => []
  end.

(** [x[i]] for one integer: a negative index counts from the end, and an
    index outside [-n, n) raises [IndexError] (NumPy's contract; the
    routines below are proved never to reach that case). *)
Definition getitem {A} (x : list A) (i : Z) : py A :=
  let n := Z.of_nat (length x) in
  let j := if i <? 0 then i + n else i in
  if (0 <=? j) && (j <? n) then
    match nth_error x (Z.to_nat j) with
    | Some a => ret a
    | None => raise IndexError
    end
  else raise IndexError.

(** [x[idx]] for an integer index array: the gather of [x] at [idx]. *)
Fixpoint take {A} (x : list A) (idx : list Z) : py (list A) :=
  match idx with
  | [] => ret []
  | i :: idx' =>
      a <- getitem x i ;;
      r <- take x idx' ;;
      ret (a :: r)
  end.

(** [x[1:]] and [x[:-1]]. *)
Definition slice_from1 {A} (x : list A) : list A := tl x.
Definition slice_to_last {A} (x : list A) : list A := removelast x.

(** [cupy.concatenate((x, y))] of two 1-D arrays. *)
Definition concatenate {A} (x y : list A) : list A := x ++ y.

(** ** Primitives of the array library *)

(** Modelled from the spec: the insertion step of [sort] below. *)
Fixpoint insert_sorted (x : Z) (l : list Z) : list Z :=
  match l with
  | [] => [x]
  | y :: l' => if x <=? y then x :: y :: l' else y :: insert_sorted x l'
  end.

(** Modelled from the spec: [cupy.sort] is not among the sources; the spec
    has [sort(array) -> sorted array], a non-decreasing rearrangement of
    the input.  Insertion sort computes it. *)
Definition sort (x : list Z) : list Z := fold_right insert_sorted [] x.

Inductive side : Type := SideLeft | SideRight.

(** Modelled from the spec: the insertion point of one query, for
    [searchsorted] below.  The spec has the leftmost bound return the first
    index that keeps the order (the elements before it are smaller than the
    query) and the rightmost bound the index just past all equal elements
    (the elements before it are at most the query). *)
Fixpoint insertion_point (sd : side) (a : list Z) (v : Z) : Z :=
  match a with
  | [] => 0
  | y :: a' =>
      if (match sd with SideLeft => y <? v | SideRight => y <=? v end)
      then 1 + insertion_point sd a' v
      else 0
  end.

(** Modelled from the spec: [cupy.searchsorted] is not among the sources;
    the spec has [searchsorted(sorted_array, queries, bound) -> index
    array], the insertion point of every query. *)
Definition searchsorted (a : list Z) (v : list Z) (sd : side) : list Z :=
  map (insertion_point sd a) v.

(** Modelled from the spec: a sorted array with the repeats of each run
    dropped, for [unique] below. *)
Fixpoint dedup_adjacent (l : list Z) : list Z :=
  match l with
  | [] => []
  | x :: l' =>
      match l' with
      | [] => [x]
      | y :: _ => if x =? y then dedup_adjacent l' else x :: dedup_adjacent l'
      end
  end.

(** Modelled from the spec: the position of the first occurrence of [v]
    in [x], for [unique_return_index] below. *)
Fixpoint first_index (v : Z) (x : list Z) : Z :=
  match x with
  | [] => 0
  | y :: x' => if y =? v then 0 else 1 + first_index v x'
  end.

(** Modelled from the spec: [cupy.unique] is not among the sources; the
    spec has [unique(array) -> sorted unique array]. *)
Definition unique (x : list Z) : list Z := dedup_adjacent (sort x).

(** Modelled from the spec: [cupy.unique] with [return_index=True]; the
    spec has it return, with the sorted unique array, the index of the
    first occurrence of each of its values in the original array. *)
Definition unique_return_index (x : list Z) : list Z * list Z :=
  let u := unique x in
  (u, map (fun v => first_index v x) u).

(** Modelled from the spec: the insertion step of [argsort] below; it
    compares values only and puts an element before the equal ones, which
    came after it. *)
Fixpoint insert_by_key (p : Z * Z) (l : list (Z * Z)) : list (Z * Z) :=
  match l with
  | [] => [p]
  | q :: l' => if fst p <=? fst q then p :: q :: l' else q :: insert_by_key p l'
  end.

(** The positions [0, ..., n-1]. *)
Definition arange (n : nat) : list Z := map Z.of_nat (seq 0 n).

(** An array with the position of each element. *)
Definition enumerate (x : list Z) : list (Z * Z) := combine x (arange (length x)).

(** Modelled from the spec: the stable sort, by value, of an array tagged
    with positions. *)
Definition sort_by_key (l : list (Z * Z)) : list (Z * Z) :=
  fold_right insert_by_key [] l.

(** Modelled from the spec: [cupy.argsort] is not among the sources; the
    spec has it produce the permutation of positions of a sort whose
    tie-breaking is stable: equal values keep their relative order, so
    that after a concatenation the entries of the first array come before
    their equals of the second. *)
Definition argsort (x : list Z) : list Z := map snd (sort_by_key (enumerate x)).

(** ** [all] and [any] *)

(** The two reduction kernels, [_logic.all] and [_logic.any]. *)
Inductive kernel : Type := KernelAll | KernelAny.

(** The collaborators of [all] and [any], none of which is among the
    sources: the fusion context ([_fusion_thread_local]), the argument check
    ([_util.check_array]) and the reduction methods of the array. *)
Record runtime (Arr Axis Res : Type) : Type := Runtime {
  is_fusing : bool;
  call_reduction : kernel -> Arr -> option Axis -> option Arr -> py Res;
  check_array : Arr -> py unit;
  reduce_method : kernel -> Arr -> option Axis -> option Arr -> bool -> py Res
}.

(** The calls a reduction makes to its collaborators, in order. *)
Inductive call : Type :=
| CallIsFusing
| CallReduction (k : kernel)
| CallCheckArray
| CallMethod (k : kernel).

Section Reductions.
Context {Arr Axis Res : Type}.
Variable rt : runtime Arr Axis Res.

Definition all (a : Arr) (axis : option Axis) (out : option Arr)
           (keepdims : bool) : list call * py Res :=
  if is_fusing rt then
    if keepdims then
      ([CallIsFusing],
       raise (NotImplementedError
                "cupy.all does not support `keepdims` in fusion yet."))
    else
      ([CallIsFusing; CallReduction KernelAll],
       call_reduction rt KernelAll a axis out)
  else
    match check_array rt a with
    | inl e => ([CallIsFusing; CallCheckArray], inl e)
    | inr _ =>
        ([CallIsFusing; CallCheckArray; CallMethod KernelAll],
         reduce_method rt KernelAll a axis out keepdims)
    end.

Definition any (a : Arr) (axis : option Axis) (out : option Arr)
           (keepdims : bool) : list call * py Res :=
  if is_fusing rt then
    if keepdims then
      ([CallIsFusing],
       raise (NotImplementedError
                "cupy.any does not support `keepdims` in fusion yet."))
    else
      ([CallIsFusing; CallReduction KernelAny],
       call_reduction rt KernelAny a axis out)
  else
    match check_array rt a with
    | inl e => ([CallIsFusing; CallCheckArray], inl e)
    | inr _ =>
        ([CallIsFusing; CallCheckArray; CallMethod KernelAny],
         reduce_method rt KernelAny a axis out keepdims)
    end.
End Reductions.

(** ** [in1d] *)

Definition in1d (ar1 ar2 : ndarray Z) (assume_unique invert : bool) : list bool :=
  let ar1 := ravel ar1 in
  let ar2 := ravel ar2 in
  if (Nat.eqb (length ar1) 0) || (Nat.eqb (length ar2) 0) then
    if invert then ones (length ar1) else zeros (length ar1)
  else
    let ar2 := sort ar2 in
    let v1 := searchsorted ar2 ar1 SideLeft in
    let v2 := searchsorted ar2 ar1 SideRight in
    if invert then zip_with Z.eqb v1 v2
    else zip_with (fun i j => negb (i =? j)) v1 v2.

(** ** [intersect1d] *)

(** What [intersect1d] returns: one array, or a tuple of three. *)
Inductive intersection : Type :=
| Values (int1d : list Z)
| ValuesIndices (int1d arr1_indices arr2_indices : list Z).

(** Lines 156-165: the optional deduplication.  [ind1] and [ind2] are bound
    only on the path that requests indices; elsewhere they are never read
    and are given as empty arrays here. *)
Definition intersect1d_prepare (arr1 arr2 : ndarray Z)
           (assume_unique return_indices : bool)
  : (list Z * list Z) * (list Z * list Z) :=
  if negb assume_unique then
    if return_indices then
      let '(arr1, ind1) := unique_return_index (ravel arr1) in
      let '(arr2, ind2) := unique_return_index (ravel arr2) in
      ((arr1, ind1), (arr2, ind2))
    else
      ((unique (ravel arr1), []), (unique (ravel arr2), []))
  else
    ((ravel arr1, []), (ravel arr2, [])).

(** Lines 167-172: the sorted concatenation, with the permutation of
    positions when indices are requested (empty otherwise: never read). *)
Definition intersect1d_sorted (arr1 arr2 : list Z) (return_indices : bool)
  : py (list Z * list Z) :=
  let aux := concatenate arr1 arr2 in
  if return_indices then
    let aux_sort_indices := argsort aux in
    aux <- take aux aux_sort_indices ;;
    ret (aux, aux_sort_indices)
  else
    ret (sort aux, []).

(** Line 174: [aux[1:] == aux[:-1]]. *)
Definition adjacent_mask (aux : list Z) : list bool :=
  zip_with Z.eqb (slice_from1 aux) (slice_to_last aux).

(** Lines 178-179: the positions in the arrays that were concatenated. *)
Definition intersect1d_positions (n1 : nat) (aux aux_sort_indices : list Z)
  : list Z * list Z :=
  let mask := adjacent_mask aux in
  let arr1_indices := compress mask (slice_to_last aux_sort_indices) in
  let arr2_indices :=
    map (fun i => i - Z.of_nat n1) (compress mask (slice_from1 aux_sort_indices)) in
  (arr1_indices, arr2_indices).

Definition intersect1d (arr1 arr2 : ndarray Z)
           (assume_unique return_indices : bool) : py intersection :=
  let '((arr1, ind1), (arr2, ind2)) :=
    intersect1d_prepare arr1 arr2 assume_unique return_indices in
  s <- intersect1d_sorted arr1 arr2 return_indices ;;
  let '(aux, aux_sort_indices) := s in
  let mask := adjacent_mask aux in
  let int1d := compress mask (slice_to_last aux) in
  if return_indices then
    let '(arr1_indices, arr2_indices) :=
      intersect1d_positions (length arr1) aux aux_sort_indices in
    if negb assume_unique then
      arr1_indices <- take ind1 arr1_indices ;;
      arr2_indices <- take ind2 arr2_indices ;;
      ret (ValuesIndices int1d arr1_indices arr2_indices)
    else
      ret (ValuesIndices int1d arr1_indices arr2_indices)
  else
    ret (Values int1d).

(** ** [isin] *)

Definition isin (element test_elements : ndarray Z)
           (assume_unique invert : bool) : py (ndarray bool) :=
  reshape (in1d element test_elements assume_unique invert) (shape element).

(** ** [union1d] *)

(** [concatenate] with [axis=None] flattens its operands first. *)
Definition union1d (arr1 arr2 : ndarray Z) : list Z :=
  unique (concatenate (ravel arr1) (ravel arr2)).

(** ** The routines over device memory

    The same routines with arrays as objects that point into a store of
    buffers, to tell a fresh array from a view and an in-place update from
    a copy.  Buffers are numbered in allocation order.  What the library
    calls allocate is modelled from the spec ("derived arrays (sorted
    copies, dedup results) are fresh allocations"): [ravel], [reshape] and
    basic slices are views of their operand, every other primitive returns
    a new array, and only the method [ndarray.sort] writes to its
    operand. *)

Module Store.

Inductive buffer : Type :=
| IntBuffer (x : list Z)
| BoolBuffer (x : list bool).

Definition store : Type := list buffer.

(** An array object: a window of a buffer, with a shape. *)
Record array : Type := Array {
  base : nat;
  offset : nat;
  ashape : list nat
}.

Definition size (a : array) : nat := size_of_shape (ashape a).

(** Computations that read and write the store and may raise. *)
Definition st (A : Type) : Type := store -> py A * store.

Definition sret {A} (a : A) : st A := fun s => (inr a, s).
Definition sraise {A} (e : exn) : st A := fun s => (inl e, s).
Definition sbind {A B} (c : st A) (k : A -> st B) : st B :=
  fun s =>
    match c s with
    | (inl e, s') => (inl e, s')
    | (inr a, s') => k a s'
    end.

Declare Scope store_scope.
Delimit Scope store_scope with store.
Notation "x <- c ;; k" := (sbind c (fun x => k))
  (at level 61, c at next level, right associativity) : store_scope.
Open Scope store_scope.

Definition window {A} (a : array) (x : list A) : list A :=
  firstn (size a) (skipn (offset a) x).

Definition read_int (a : array) : st (list Z) :=
  fun s =>
    match nth_error s (base a) with
    | Some (IntBuffer x) => (inr (window a x), s)
    | _ => (inl TypeError, s)
    end.

Definition read_bool (a : array) : st (list bool) :=
  fun s =>
    match nth_error s (base a) with
    | Some (BoolBuffer x) => (inr (window a x), s)
    | _ => (inl TypeError, s)
    end.

(** A new 1-D array on a new buffer. *)
Definition alloc (b : buffer) (n : nat) : st array :=
  fun s => (inr (Array (length s) 0 [n]), s ++ [b]).

Definition new_int (x : list Z) : st array := alloc (IntBuffer x) (length x).
Definition new_bool (x : list bool) : st array := alloc (BoolBuffer x) (length x).

Fixpoint set_nth {A} (i : nat) (b : A) (l : list A) : list A :=
  match l with
  | [] => []
  | a :: l' =>
      match i with
      | O => b :: l'
      | S i' => a :: set_nth i' b l'
      end
  end.

(** The elements of the window replaced, the rest of the buffer kept. *)
Definition overwrite {A} (a : array) (new old : list A) : list A :=
  firstn (offset a) old ++ new ++ skipn (offset a + length new) old.

Definition write_int (a : array) (x : list Z) : st unit :=
  fun s =>
    match nth_error s (base a) with
    | Some (IntBuffer old) =>
        (inr tt, set_nth (base a) (IntBuffer (overwrite a x old)) s)
    | _ => (inl TypeError, s)
    end.

(** Modelled from the spec: [ravel] of a contiguous array is a view: the
    same buffer under a flat shape. *)
Definition ndarray_ravel (a : array) : array :=
  Array (base a) (offset a) [size a].

(** Modelled from the spec: [reshape] is a view under the new shape, and
    raises [ValueError] unless the sizes agree. *)
Definition ndarray_reshape (a : array) (s : list nat) : st array :=
  if Nat.eqb (size_of_shape s) (size a) then sret (Array (base a) (offset a) s)
  else sraise ValueError.

(** The basic slices [a[1:]] and [a[:-1]] of a 1-D array are views. *)
Definition view_from1 (a : array) : array :=
  Array (base a) (offset a + Nat.min 1 (size a)) [(size a - 1)%nat].

Definition view_to_last (a : array) : array :=
  Array (base a) (offset a) [(size a - 1)%nat].

(** Modelled from the spec: [cupy.sort] returns a sorted copy. *)
Definition cupy_sort (a : array) : st array :=
  x <- read_int a ;; new_int (sort x).

(** Modelled from the spec: [cupy.searchsorted] returns a new index
    array. *)
Definition cupy_searchsorted (a v : array) (sd : side) : st array :=
  x <- read_int a ;;
  q <- read_int v ;;
  new_int (searchsorted x q sd).

(** Modelled from the spec: [cupy.unique] returns a new array. *)
Definition cupy_unique (a : array) : st array :=
  x <- read_int a ;; new_int (unique x).

(** Modelled from the spec: [cupy.unique] with [return_index=True]
    returns two new arrays. *)
Definition cupy_unique_index (a : array) : st (array * array) :=
  x <- read_int a ;;
  u <- new_int (fst (unique_return_index x)) ;;
  i <- new_int (snd (unique_return_index x)) ;;
  sret (u, i).

(** Modelled from the spec: [cupy.concatenate] returns a new array. *)
Definition cupy_concatenate (a b : array) : st array :=
  x <- read_int a ;;
  y <- read_int b ;;
  new_int (concatenate x y).

(** Modelled from the spec: [cupy.argsort] returns a new index array. *)
Definition cupy_argsort (a : array) : st array :=
  x <- read_int a ;; new_int (argsort x).

(** [cupy.zeros] and [cupy.ones] return new arrays. *)
Definition cupy_zeros (n : nat) : st array := new_bool (zeros n).
Definition cupy_ones (n : nat) : st array := new_bool (ones n).

(** The element-wise [==], [!=] and [- n] return new arrays. *)
Definition equal (a b : array) : st array :=
  x <- read_int a ;;
  y <- read_int b ;;
  new_bool (zip_with Z.eqb x y).

Definition not_equal (a b : array) : st array :=
  x <- read_int a ;;
  y <- read_int b ;;
  new_bool (zip_with (fun i j => negb (i =? j)) x y).

Definition subtract_scalar (a : array) (n : Z) : st array :=
  x <- read_int a ;; new_int (map (fun i => i - n) x).

(** [a[idx]] for an integer index array and [a[mask]] for a boolean mask:
    both copy the selected elements. *)
Definition getitem_index (a idx : array) : st array :=
  x <- read_int a ;;
  i <- read_int idx ;;
  match take x i with
  | inl e => sraise e
  | inr r => new_int r
  end.

Definition getitem_mask (a mask : array) : st array :=
  x <- read_int a ;;
  m <- read_bool mask ;;
  new_int (compress m x).

(** Modelled from the spec: the method [ndarray.sort] sorts its operand in
    place ("sort [aux] in place without tracking the permutation"). *)
Definition ndarray_sort (a : array) : st unit :=
  x <- read_int a ;; write_int a (sort x).

(** A name that is bound on the path taken. *)
Definition bound (x : option array) : st array :=
  match x with
  | Some a => sret a
  | None => sraise UnboundLocalError
  end.

Definition in1d (ar1 ar2 : array) (assume_unique invert : bool) : st array :=
  let ar1 := ndarray_ravel ar1 in
  let ar2 := ndarray_ravel ar2 in
  if (Nat.eqb (size ar1) 0) || (Nat.eqb (size ar2) 0) then
    if invert then cupy_ones (size ar1) else cupy_zeros (size ar1)
  else
    ar2 <- cupy_sort ar2 ;;
    v1 <- cupy_searchsorted ar2 ar1 SideLeft ;;
    v2 <- cupy_searchsorted ar2 ar1 SideRight ;;
    if invert then equal v1 v2 else not_equal v1 v2.

Inductive result : Type :=
| One (int1d : array)
| Three (int1d arr1_indices arr2_indices : array).

Definition intersect1d (arr1 arr2 : array)
           (assume_unique return_indices : bool) : st result :=
  p <- (if negb assume_unique then
          if return_indices then
            u1 <- cupy_unique_index arr1 ;;
            u2 <- cupy_unique_index arr2 ;;
            sret ((fst u1, Some (snd u1)), (fst u2, Some (snd u2)))
          else
            a1 <- cupy_unique arr1 ;;
            a2 <- cupy_unique arr2 ;;
            sret ((a1, None), (a2, None))
        else
          sret ((ndarray_ravel arr1, None), (ndarray_ravel arr2, None))) ;;
  let '((arr1, ind1), (arr2, ind2)) := p in
  aux <- cupy_concatenate arr1 arr2 ;;
  q <- (if return_indices then
          aux_sort_indices <- cupy_argsort aux ;;
          aux <- getitem_index aux aux_sort_indices ;;
          sret (aux, Some aux_sort_indices)
        else
          _ <- ndarray_sort aux ;;
          sret (aux, None)) ;;
  let '(aux, aux_sort_indices) := q in
  mask <- equal (view_from1 aux) (view_to_last aux) ;;
  int1d <- getitem_mask (view_to_last aux) mask ;;
  if return_indices then
    aux_sort_indices <- bound aux_sort_indices ;;
    arr1_indices <- getitem_mask (view_to_last aux_sort_indices) mask ;;
    shifted <- getitem_mask (view_from1 aux_sort_indices) mask ;;
    arr2_indices <- subtract_scalar shifted (Z.of_nat (size arr1)) ;;
    if negb assume_unique then
      ind1 <- bound ind1 ;;
      ind2 <- bound ind2 ;;
      arr1_indices <- getitem_index ind1 arr1_indices ;;
      arr2_indices <- getitem_index ind2 arr2_indices ;;
      sret (Three int1d arr1_indices arr2_indices)
    else
      sret (Three int1d arr1_indices arr2_indices)
  else
    sret (One int1d).

Definition isin (element test_elements : array)
           (assume_unique invert : bool) : st array :=
  r <- in1d element test_elements assume_unique invert ;;
  ndarray_reshape r (ashape element).

Definition union1d (arr1 arr2 : array) : st array :=
  aux <- cupy_concatenate (ndarray_ravel arr1) (ndarray_ravel arr2) ;;
  cupy_unique aux.

Close Scope store_scope.

End Store.

(** ** Notions used in the statements *)

(** The decision "does [v] occur in [x]", as a boolean. *)
Definition occurs (v : Z) (x : list Z) : bool := existsb (Z.eqb v) x.

(** The pairs [(x[k], x[k+1])]: [x[:-1]] holds their first components and
    [x[1:]] their second components. *)
Fixpoint adjacent_pairs {A} (l : list A) : list (A * A) :=
  match l with
  | [] => []
  | x :: l' =>
      match l' with
      | [] => []
      | y :: _ => (x, y) :: adjacent_pairs l'
      end
  end.

(** The values [x[k]] with [x[k+1] == x[k]], by recursion on [x]. *)
Fixpoint adjacent_dups (l : list Z) : list Z :=
  match l with
  | [] => []
  | x :: l' =>
      match l' with
      | [] => []
      | y :: _ => if y =? x then x :: adjacent_dups l' else adjacent_dups l'
      end
  end.

(** Order by value, then by position: what a stable sort on the values
    yields for an array tagged with its positions. *)
Definition lex_lt (p q : Z * Z) : Prop :=
  fst p < fst q \/ (fst p = fst q /\ snd p < snd q).

Definition position_lt (p q : Z * Z) : Prop := snd p < snd q.

(** The neighbours of the sorted tagged array that carry one value. *)
Definition same_key (pq : (Z * Z) * (Z * Z)) : bool :=
  fst (snd pq) =? fst (fst pq).

Definition matches (sp : list (Z * Z)) : list ((Z * Z) * (Z * Z)) :=
  filter same_key (adjacent_pairs sp).

(** [tagged x] is the array [x] sorted stably with its positions. *)
Definition tagged (x : list Z) : list (Z * Z) := sort_by_key (enumerate x).

(** A neighbour pair that crosses from the first array into the second:
    the first position lies in [arr1], the second, less [arr1.size], in
    [arr2], and both hold the pair's value. *)
Definition crosses (arr1 arr2 : list Z) (pq : (Z * Z) * (Z * Z)) : Prop :=
  let v := fst (fst pq) in
  let i := snd (fst pq) in
  let j := snd (snd pq) - Z.of_nat (length arr1) in
  0 <= i < Z.of_nat (length arr1) /\
  0 <= j < Z.of_nat (length arr2) /\
  nth_error arr1 (Z.to_nat i) = Some v /\
  nth_error arr2 (Z.to_nat j) = Some v.

(** The arrays that are concatenated: deduplicated, or only flattened when
    the caller vouches for uniqueness. *)
Definition dedup_or_ravel (assume_unique : bool) (a : ndarray Z) : list Z :=
  if assume_unique then ravel a else unique (ravel a).

Definition common_values (assume_unique : bool) (arr1 arr2 : ndarray Z) : list Z :=
  adjacent_dups
    (sort (concatenate (dedup_or_ravel assume_unique arr1)
                       (dedup_or_ravel assume_unique arr2))).

(** The array of values that [intersect1d] returns, alone or in a tuple. *)
Definition int1d_of (r : intersection) : list Z :=
  match r with
  | Values v => v
  | ValuesIndices v _ _ => v
  end.

(** A fusion context whose collaborators would all succeed. *)
Definition fusing_runtime : runtime (list bool) nat bool :=
  {| is_fusing := true;
     call_reduction := fun k a _ _ =>
       ret (match k with
            | KernelAll => forallb (fun b => b) a
            | KernelAny => existsb (fun b => b) a
            end);
     check_array := fun _ => ret tt;
     reduce_method := fun k a _ _ _ =>
       ret (match k with
            | KernelAll => forallb (fun b => b) a
            | KernelAny => existsb (fun b => b) a
            end) |}.

(** The buffers numbered below [n] are in [s'] as they are in [s]. *)
Definition unchanged_below (n : nat) (s s' : Store.store) : Prop :=
  (n <= length s')%nat /\
  forall i, (i < n)%nat -> nth_error s' i = nth_error s i.

(** An array on a buffer allocated at or after [n]. *)
Definition fresh (n : nat) (a : Store.array) : Prop := (n <= Store.base a)%nat.

(** [keeps n c P]: run from a store with at least [n] buffers, [c] leaves
    the first [n] as they are, and its result, if any, satisfies [P]. *)
Definition keeps (n : nat) {A} (c : Store.st A) (P : A -> Prop) : Prop :=
  forall s, (n <= length s)%nat ->
    unchanged_below n s (snd (c s)) /\
    forall a, fst (c s) = inr a -> P a.

(** Every buffer of [s] is in [s'] with the same elements. *)
Definition buffers_kept (s s' : Store.store) : Prop :=
  forall i b, nth_error s i = Some b -> nth_error s' i = Some b.

(** The elements seen through the array object [a] in the store [s]. *)
Definition elements (s : Store.store) (a : Store.array) : py (list Z) :=
  fst (Store.read_int a s).

(** The array object [a] shows the elements [x] in the store [s]. *)
Definition holds_int (s : Store.store) (a : Store.array) (x : list Z) : Prop :=
  exists buf,
    nth_error s (Store.base a) = Some (Store.IntBuffer buf) /\
    Store.window a buf = x /\ Store.size a = length x.

Definition holds_bool (s : Store.store) (a : Store.array) (x : list bool) : Prop :=
  exists buf,
    nth_error s (Store.base a) = Some (Store.BoolBuffer buf) /\
    Store.window a buf = x /\ Store.size a = length x.

(** The arrays returned over the store hold the arrays returned on the
    elements. *)
Definition result_holds (s : Store.store) (r : Store.result) (v : intersection) : Prop :=
  match r, v with
  | Store.One a, Values x => holds_int s a x
  | Store.Three a b c, ValuesIndices x y z =>
      holds_int s a x /\ holds_int s b y /\ holds_int s c z
  | _, _ => False
  end.

(** A 1-D array given to a routine that takes an n-dimensional array. *)
Definition array1d (x : list Z) : ndarray Z := NDArray [length x] x.

(** The result of [intersect1d] with the two index arrays exchanged. *)
Definition swap_indices (r : intersection) : intersection :=
  match r with
  | Values v => Values v
  | ValuesIndices v c1 c2 => ValuesIndices v c2 c1
  end.

(** Every array of a result of [intersect1d] over the store is on a buffer
    allocated at or after [n]. *)
Definition fresh_result (n : nat) (r : Store.result) : Prop :=
  match r with
  | Store.One a => fresh n a
  | Store.Three a b c => fresh n a /\ fresh n b /\ fresh n c
  end.

(** The reductions that a trace of calls dispatches. *)
Definition dispatched (t : list call) : list call :=
  filter (fun c => match c with
                   | CallReduction _ | CallMethod _ => true
                   | _ => false
                   end) t.


(** What the trace and the result [r] of a reduction with kernel [k] obey:
    at most one reduction is dispatched; the argument check runs exactly
    outside fusion; a value is only returned by a dispatched reduction; the
    fused kernel runs only in fusion without [keepdims]; the method of the
    array runs only outside fusion after a successful check. *)
Definition dispatch_discipline {Arr Axis Res : Type} (rt : runtime Arr Axis Res)
           (k : kernel) (a : Arr) (keepdims : bool) (r : list call * py Res) : Prop :=
  (length (dispatched (fst r)) <= 1)%nat /\
  (In CallCheckArray (fst r) <-> is_fusing rt = false) /\
  (forall v, snd r = inr v -> length (dispatched (fst r)) = 1%nat) /\
  (forall k', In (CallReduction k') (fst r) <->
              k' = k /\ is_fusing rt = true /\ keepdims = false) /\
  (forall k', In (CallMethod k') (fst r) <->
              k' = k /\ is_fusing rt = false /\ exists u, check_array rt a = inr u).

(** * Properties *)

Example in1d_scenario :
  in1d (NDArray [4%nat] [1; 2; 2; 3]) (NDArray [3%nat] [2; 3; 4]) false false
  = [false; true; true; true].
Proof. reflexivity. Qed.

Example intersect1d_scenario :
  intersect1d (NDArray [4%nat] [1; 2; 2; 3]) (NDArray [3%nat] [2; 3; 4]) false false
  = inr (Values [2; 3]).
Proof. reflexivity. Qed.

Example intersect1d_indices_scenario :
  intersect1d (NDArray [3%nat] [1; 2; 3]) (NDArray [3%nat] [3; 1; 4]) false true
  = inr (ValuesIndices [1; 3] [0; 2] [1; 0]).
Proof. reflexivity. Qed.

Example intersect1d_indices_dups :
  intersect1d (NDArray [2%nat;3%nat] [5; 2; 5; 2; 7; 5]) (NDArray [5%nat] [7; 7; 5; 9; 5]) false true
  = inr (ValuesIndices [5; 7] [0; 4] [2; 0]).
Proof. reflexivity. Qed.

Example union1d_scenario :
  union1d (NDArray [4%nat] [1; 2; 2; 3]) (NDArray [3%nat] [2; 3; 4]) = [1; 2; 3; 4].
Proof. reflexivity. Qed.

(** ** Lists as arrays *)

Lemma zip_with_map {A B C D} (f : B -> C -> D) (g : A -> B) (h : A -> C) (l : list A) :
  zip_with f (map g l) (map h l) = map (fun a => f (g a) (h a)) l.
Proof.
  induction l as [|a l IH]; simpl; [reflexivity | now rewrite IH].
Qed.


Lemma map_const_repeat {A B} (b : B) (l : list A) :
  map (fun _ => b) l = repeat b (length l).
Proof.
  induction l as [|a l IH]; simpl; [reflexivity | now rewrite IH].
Qed.

(** ** [sort] returns a sorted rearrangement *)

Lemma insert_sorted_perm (x : Z) (l : list Z) :
  Permutation (insert_sorted x l) (x :: l).
Proof.
  induction l as [|y l IH]; simpl.
  - apply Permutation_refl.
  - destruct (x <=? y).
    + apply Permutation_refl.
    + apply perm_trans with (y :: x :: l).
      * now apply perm_skip.
      * apply perm_swap.
Qed.

Lemma sort_perm (l : list Z) : Permutation (sort l) l.
Proof.
  induction l as [|x l IH]; simpl.
  - apply perm_nil.
  - apply perm_trans with (x :: sort l).
    + apply insert_sorted_perm.
    + now apply perm_skip.
Qed.

Lemma sort_In (l : list Z) (v : Z) : In v (sort l) <-> In v l.
Proof.
  split; apply Permutation_in; [apply sort_perm | apply Permutation_sym, sort_perm].
Qed.

Lemma sort_length (l : list Z) : length (sort l) = length l.
Proof. apply Permutation_length, sort_perm. Qed.

Lemma insert_sorted_sorted (x : Z) (l : list Z) :
  StronglySorted Z.le l -> StronglySorted Z.le (insert_sorted x l).
Proof.
  induction 1 as [|y l Hs IH Hall]; simpl.
  - constructor; constructor.
  - destruct (Z.leb_spec x y) as [Hxy | Hxy].
    + constructor.
      * now constructor.
      * constructor; [exact Hxy |].
        apply Forall_impl with (P := Z.le y); [intros; lia | exact Hall].
    + constructor; [exact IH |].
      apply Forall_forall; intros z Hz.
      apply (Permutation_in _ (insert_sorted_perm x l)) in Hz.
      destruct Hz as [<- | Hz]; [lia |].
      rewrite Forall_forall in Hall; now apply Hall.
Qed.

Lemma sort_sorted (l : list Z) : StronglySorted Z.le (sort l).
Proof.
  induction l as [|x l IH]; simpl.
  - constructor.
  - now apply insert_sorted_sorted.
Qed.

(** ** The two insertion points differ exactly on the members *)

Lemma insertion_point_nonneg (sd : side) (a : list Z) (v : Z) :
  0 <= insertion_point sd a v.
Proof.
  induction a as [|y a IH]; cbn [insertion_point]; [lia |].
  destruct sd; [destruct (y <? v) | destruct (y <=? v)]; lia.
Qed.

(** The leftmost insertion point never exceeds the rightmost one. *)
Lemma insertion_point_le (a : list Z) (v : Z) :
  insertion_point SideLeft a v <= insertion_point SideRight a v.
Proof.
  induction a as [|y a IH]; cbn [insertion_point]; [lia |].
  destruct (Z.ltb_spec y v), (Z.leb_spec y v); try lia.
  pose proof (insertion_point_nonneg SideRight a v); lia.
Qed.

Lemma insertion_point_member (a : list Z) (v : Z) :
  StronglySorted Z.le a ->
  (insertion_point SideLeft a v =? insertion_point SideRight a v) = false <-> In v a.
Proof.
  induction 1 as [|y a Hs IH Hall]; cbn [insertion_point In].
  - split; [discriminate | tauto].
  - destruct (Z.ltb_spec y v) as [Hlt | Hge], (Z.leb_spec y v) as [Hle | Hgt]; try lia.
    + replace (1 + insertion_point SideLeft a v =? 1 + insertion_point SideRight a v)
        with (insertion_point SideLeft a v =? insertion_point SideRight a v).
      * rewrite IH. split; [tauto | intros [Heq | Hin]; [lia | exact Hin]].
      * destruct (Z.eqb_spec (insertion_point SideLeft a v) (insertion_point SideRight a v));
          symmetry; [apply Z.eqb_eq | apply Z.eqb_neq]; lia.
    + assert (y = v) as -> by lia.
      pose proof (insertion_point_nonneg SideRight a v).
      split; [intros _; now left | intros _; apply Z.eqb_neq; lia].
    + split; [discriminate |].
      intros [Heq | Hin]; [lia |].
      rewrite Forall_forall in Hall. specialize (Hall v Hin). lia.
Qed.

(** ** [in1d] *)

Lemma occurs_In (v : Z) (x : list Z) : occurs v x = true <-> In v x.
Proof.
  unfold occurs. rewrite existsb_exists. split.
  - intros [y [Hin Heq]]. apply Z.eqb_eq in Heq. now subst.
  - intros Hin. exists v. split; [exact Hin | apply Z.eqb_refl].
Qed.

Lemma searchsorted_differ (a : list Z) (v : Z) :
  negb (insertion_point SideLeft (sort a) v =? insertion_point SideRight (sort a) v)
  = occurs v a.
Proof.
  pose proof (insertion_point_member v (sort_sorted a)) as Hm.
  rewrite sort_In, <- occurs_In in Hm.
  destruct (insertion_point SideLeft (sort a) v =? insertion_point SideRight (sort a) v),
    (occurs v a); simpl; try reflexivity.
  - destruct Hm as [_ Hm]. symmetry. now apply Hm.
  - destruct Hm as [Hm _]. symmetry. now apply Hm.
Qed.

(** [in1d] computes the membership test of each query, negated under
    [invert]. *)
Lemma in1d_eq (ar1 ar2 : ndarray Z) (assume_unique invert : bool) :
  in1d ar1 ar2 assume_unique invert
  = map (fun q => xorb invert (occurs q (ravel ar2))) (ravel ar1).
Proof.
  unfold in1d, searchsorted, zeros, ones.
  destruct (Nat.eqb_spec (length (ravel ar1)) 0) as [H1 | H1]; simpl.
  - apply length_zero_iff_nil in H1. rewrite H1. now destruct invert.
  - destruct (Nat.eqb_spec (length (ravel ar2)) 0) as [H2 | H2]; simpl.
    + apply length_zero_iff_nil in H2. rewrite H2.
      destruct invert; simpl; now rewrite map_const_repeat.
    + destruct invert; rewrite zip_with_map; apply map_ext; intros q.
      * rewrite <- searchsorted_differ. simpl.
        now destruct (insertion_point SideLeft (sort (ravel ar2)) q
                      =? insertion_point SideRight (sort (ravel ar2)) q).
      * simpl. apply searchsorted_differ.
Qed.

(** C1: [in1d] returns one boolean per element of the flattened query
    array; without [invert] entry [i] is true iff the [i]-th query occurs in
    the reference array; with [invert] every entry is negated; when either
    input is empty the result is all false (all true under [invert]) of the
    query's length, so [in1d([], r)] is empty and [in1d(q, [])] is all
    false. *)
Theorem in1d_membership (Q R : ndarray Z) (assume_unique : bool) :
  (forall invert,
     length (in1d Q R assume_unique invert) = length (ravel Q)) /\
  (forall i q, nth_error (ravel Q) i = Some q ->
     exists b, nth_error (in1d Q R assume_unique false) i = Some b /\
               (b = true <-> In q (ravel R))) /\
  in1d Q R assume_unique true = map negb (in1d Q R assume_unique false) /\
  (ravel Q = [] \/ ravel R = [] ->
     in1d Q R assume_unique false = repeat false (length (ravel Q)) /\
     in1d Q R assume_unique true = repeat true (length (ravel Q))) /\
  (ravel Q = [] -> forall invert, in1d Q R assume_unique invert = []).
Proof.
  split; [| split; [| split; [| split]]].
  - intros invert. rewrite in1d_eq. apply length_map.
  - intros i q Hq. exists (occurs q (ravel R)). split.
    + rewrite in1d_eq, nth_error_map, Hq. reflexivity.
    + apply occurs_In.
  - rewrite !in1d_eq, map_map. apply map_ext. intros q. reflexivity.
  - intros H. unfold in1d, zeros, ones.
    destruct H as [H | H]; rewrite H; simpl; [now split |].
    rewrite Bool.orb_true_r. now split.
  - intros H invert. rewrite in1d_eq, H. reflexivity.
Qed.

(** ** [unique] returns the distinct values in increasing order *)

Lemma dedup_adjacent_cons2 (x y : Z) (t : list Z) :
  dedup_adjacent (x :: y :: t)
  = if x =? y then dedup_adjacent (y :: t) else x :: dedup_adjacent (y :: t).
Proof. reflexivity. Qed.

Lemma dedup_adjacent_In (l : list Z) (v : Z) :
  In v (dedup_adjacent l) <-> In v l.
Proof.
  induction l as [|x l IH]; [tauto |].
  destruct l as [|y t]; [simpl; tauto |].
  rewrite dedup_adjacent_cons2.
  destruct (Z.eqb_spec x y) as [-> | Hne].
  - rewrite IH. simpl. tauto.
  - change (In v (x :: dedup_adjacent (y :: t))) with (x = v \/ In v (dedup_adjacent (y :: t))).
    rewrite IH. simpl. tauto.
Qed.

Lemma dedup_adjacent_sorted (l : list Z) :
  StronglySorted Z.le l -> StronglySorted Z.lt (dedup_adjacent l).
Proof.
  induction l as [|x l IH]; intros Hs; [constructor |].
  destruct l as [|y t]; [repeat constructor |].
  rewrite dedup_adjacent_cons2.
  inversion Hs as [|? ? Hs' Hall]; subst.
  destruct (Z.eqb_spec x y) as [-> | Hne].
  - now apply IH.
  - constructor; [now apply IH |].
    apply Forall_forall. intros z Hz. apply (proj1 (dedup_adjacent_In _ _)) in Hz.
    inversion Hs' as [|? ? _ Hall']; subst.
    inversion Hall as [|? ? Hxy _]; subst.
    destruct Hz as [<- | Hz]; [lia |].
    rewrite Forall_forall in Hall'. specialize (Hall' z Hz). lia.
Qed.

Lemma StronglySorted_lt_le (l : list Z) :
  StronglySorted Z.lt l -> StronglySorted Z.le l.
Proof.
  induction 1 as [|x l Hs IH Hall]; constructor; [exact IH |].
  apply Forall_impl with (P := Z.lt x); [intros; lia | exact Hall].
Qed.

Lemma StronglySorted_lt_NoDup (l : list Z) :
  StronglySorted Z.lt l -> NoDup l.
Proof.
  induction 1 as [|x l Hs IH Hall]; constructor; [| exact IH].
  intros Hin. rewrite Forall_forall in Hall. specialize (Hall x Hin). lia.
Qed.

Lemma unique_sorted (x : list Z) : StronglySorted Z.lt (unique x).
Proof. apply dedup_adjacent_sorted, sort_sorted. Qed.

Lemma unique_NoDup (x : list Z) : NoDup (unique x).
Proof. apply StronglySorted_lt_NoDup, unique_sorted. Qed.

Lemma unique_In (x : list Z) (v : Z) : In v (unique x) <-> In v x.
Proof. unfold unique. now rewrite dedup_adjacent_In, sort_In. Qed.

(** C5: [union1d] returns every distinct value of either input exactly
    once, in ascending order; [union1d([1,2,2,3], [2,3,4])] is
    [[1,2,3,4]]. *)
Theorem union1d_sorted_distinct (arr1 arr2 : ndarray Z) :
  StronglySorted Z.lt (union1d arr1 arr2) /\
  NoDup (union1d arr1 arr2) /\
  (forall v, In v (union1d arr1 arr2) <-> In v (ravel arr1) \/ In v (ravel arr2)) /\
  (forall v, In v (ravel arr1) \/ In v (ravel arr2) ->
             count_occ Z.eq_dec (union1d arr1 arr2) v = 1%nat) /\
  union1d (NDArray [4%nat] [1; 2; 2; 3]) (NDArray [3%nat] [2; 3; 4]) = [1; 2; 3; 4].
Proof.
  assert (Hin : forall v, In v (union1d arr1 arr2) <-> In v (ravel arr1) \/ In v (ravel arr2)).
  { intros v. unfold union1d, concatenate. rewrite unique_In. apply in_app_iff. }
  split; [apply unique_sorted |].
  split; [apply unique_NoDup |].
  split; [exact Hin |].
  split; [| reflexivity].
  intros v Hv. apply NoDup_count_occ'; [apply unique_NoDup | now apply Hin].
Qed.

(** ** Neighbours in an array *)

Lemma adjacent_pairs_cons2 {A} (x y : A) (t : list A) :
  adjacent_pairs (x :: y :: t) = (x, y) :: adjacent_pairs (y :: t).
Proof. reflexivity. Qed.

Lemma slice_to_last_pairs {A} (l : list A) :
  slice_to_last l = map fst (adjacent_pairs l).
Proof.
  unfold slice_to_last.
  induction l as [|x l IH]; [reflexivity |].
  destruct l as [|y t]; [reflexivity |].
  rewrite adjacent_pairs_cons2. cbn [map fst]. rewrite <- IH. reflexivity.
Qed.

Lemma slice_from1_pairs {A} (l : list A) :
  slice_from1 l = map snd (adjacent_pairs l).
Proof.
  unfold slice_from1.
  induction l as [|x l IH]; [reflexivity |].
  destruct l as [|y t]; [reflexivity |].
  rewrite adjacent_pairs_cons2. cbn [map snd tl] in *. now rewrite <- IH.
Qed.

Lemma adjacent_pairs_map {A B} (f : A -> B) (l : list A) :
  adjacent_pairs (map f l)
  = map (fun pq => (f (fst pq), f (snd pq))) (adjacent_pairs l).
Proof.
  induction l as [|x l IH]; [reflexivity |].
  destruct l as [|y t]; [reflexivity |].
  cbn [map] in *. rewrite !adjacent_pairs_cons2, IH. reflexivity.
Qed.

Lemma adjacent_pairs_In {A} (l : list A) (pq : A * A) :
  In pq (adjacent_pairs l) -> In (fst pq) l /\ In (snd pq) l.
Proof.
  induction l as [|x l IH]; [intros [] |].
  destruct l as [|y t]; [intros [] |].
  rewrite adjacent_pairs_cons2. intros [<- | Hin].
  - simpl. tauto.
  - destruct (IH Hin) as [H1 H2]. split; now right.
Qed.

Lemma adjacent_pairs_sorted {A} (R : A -> A -> Prop) (l : list A) :
  StronglySorted R l -> Forall (fun pq => R (fst pq) (snd pq)) (adjacent_pairs l).
Proof.
  induction 1 as [|x l Hs IH Hall]; [constructor |].
  destruct l as [|y t]; [constructor |].
  rewrite adjacent_pairs_cons2. constructor; [| exact IH].
  simpl. now inversion Hall.
Qed.

Lemma compress_map_filter {A B} (g : A -> bool) (f : A -> B) (l : list A) :
  compress (map g l) (map f l) = map f (filter g l).
Proof.
  induction l as [|a l IH]; [reflexivity |].
  simpl. destruct (g a); simpl; now rewrite IH.
Qed.

(** ** The adjacent equal values of a sorted array *)

Lemma adjacent_dups_cons2 (x y : Z) (t : list Z) :
  adjacent_dups (x :: y :: t)
  = if y =? x then x :: adjacent_dups (y :: t) else adjacent_dups (y :: t).
Proof. reflexivity. Qed.

Lemma adjacent_mask_pairs (aux : list Z) :
  adjacent_mask aux = map (fun pq => snd pq =? fst pq) (adjacent_pairs aux).
Proof.
  unfold adjacent_mask.
  rewrite slice_from1_pairs, slice_to_last_pairs. apply zip_with_map.
Qed.

(** Line 175 computes [adjacent_dups]. *)
Lemma int1d_adjacent_dups (aux : list Z) :
  compress (adjacent_mask aux) (slice_to_last aux) = adjacent_dups aux.
Proof.
  rewrite adjacent_mask_pairs, slice_to_last_pairs, compress_map_filter.
  induction aux as [|x l IH]; [reflexivity |].
  destruct l as [|y t]; [reflexivity |].
  rewrite adjacent_pairs_cons2, adjacent_dups_cons2.
  cbn [filter fst snd]. destruct (y =? x); cbn [map fst]; now rewrite IH.
Qed.

Lemma adjacent_dups_count (l : list Z) (z : Z) :
  In z (adjacent_dups l) -> (2 <= count_occ Z.eq_dec l z)%nat.
Proof.
  induction l as [|x l IH]; [intros [] |].
  destruct l as [|y t]; [intros [] |].
  rewrite adjacent_dups_cons2. intros Hin.
  assert (Hstep : In z (adjacent_dups (y :: t)) ->
                  (2 <= count_occ Z.eq_dec (x :: y :: t) z)%nat).
  { intros H. specialize (IH H).
    destruct (Z.eq_dec x z) as [Heq | Hneq];
      [rewrite (count_occ_cons_eq _ _ Heq) | rewrite (count_occ_cons_neq _ _ Hneq)]; lia. }
  destruct (Z.eqb_spec y x) as [-> | Hne]; [| now apply Hstep].
  destruct Hin as [<- | Hin]; [| now apply Hstep].
  rewrite !count_occ_cons_eq by reflexivity. lia.
Qed.

Lemma adjacent_dups_In (l : list Z) (z : Z) :
  In z (adjacent_dups l) -> In z l.
Proof.
  intros H. apply (count_occ_In Z.eq_dec). apply adjacent_dups_count in H. lia.
Qed.

Lemma count_adjacent_dups (l : list Z) (z : Z) :
  StronglySorted Z.le l ->
  (2 <= count_occ Z.eq_dec l z)%nat -> In z (adjacent_dups l).
Proof.
  induction 1 as [|x l Hs IH Hall]; [simpl; lia |].
  destruct l as [|y t].
  - simpl. destruct (Z.eq_dec x z); lia.
  - rewrite adjacent_dups_cons2. intros Hc.
    destruct (Z.eq_dec x z) as [Heq | Hneq].
    + rewrite (count_occ_cons_eq _ _ Heq) in Hc.
      assert (Hin : In z (y :: t)) by (apply (count_occ_In Z.eq_dec); lia).
      assert (y = x) as ->.
      { inversion Hall as [|? ? Hxy _]; subst.
        inversion Hs as [|? ? _ Hall']; subst.
        destruct Hin as [-> | Hin]; [reflexivity |].
        rewrite Forall_forall in Hall'. specialize (Hall' z Hin). lia. }
      rewrite Z.eqb_refl. now left.
    + rewrite (count_occ_cons_neq _ _ Hneq) in Hc.
      specialize (IH Hc). destruct (y =? x); [now right | exact IH].
Qed.

Lemma adjacent_dups_sorted (l : list Z) :
  StronglySorted Z.le l ->
  (forall z, (count_occ Z.eq_dec l z <= 2)%nat) ->
  StronglySorted Z.lt (adjacent_dups l).
Proof.
  induction 1 as [|x l Hs IH Hall]; intros Hc; [constructor |].
  destruct l as [|y t]; [constructor |].
  rewrite adjacent_dups_cons2.
  assert (Hc' : forall z, (count_occ Z.eq_dec (y :: t) z <= 2)%nat).
  { intros z. specialize (Hc z).
    destruct (Z.eq_dec x z) as [Heq | Hneq];
      [rewrite (count_occ_cons_eq _ _ Heq) in Hc
      | rewrite (count_occ_cons_neq _ _ Hneq) in Hc]; lia. }
  specialize (IH Hc').
  destruct (Z.eqb_spec y x) as [-> | Hne]; [| exact IH].
  constructor; [exact IH |].
  apply Forall_forall. intros z Hz.
  pose proof (adjacent_dups_count _ _ Hz) as H2.
  apply adjacent_dups_In in Hz.
  rewrite Forall_forall in Hall. specialize (Hall z Hz).
  destruct (Z.eq_dec x z) as [Heq | Hneq]; [| lia].
  specialize (Hc z). rewrite (count_occ_cons_eq _ _ Heq) in Hc. lia.
Qed.

(** ** The values of [intersect1d] *)

(** The sorted concatenation of two duplicate-free arrays holds a value
    twice when it occurs in both, and never more often. *)
Lemma count_sorted_concat (arr1 arr2 : list Z) (z : Z) :
  count_occ Z.eq_dec (sort (concatenate arr1 arr2)) z
  = (count_occ Z.eq_dec arr1 z + count_occ Z.eq_dec arr2 z)%nat.
Proof.
  unfold concatenate. rewrite <- count_occ_app.
  apply Permutation_count_occ, sort_perm.
Qed.

Lemma common_values_In (arr1 arr2 : list Z) (z : Z) :
  NoDup arr1 -> NoDup arr2 ->
  In z (adjacent_dups (sort (concatenate arr1 arr2))) <-> In z arr1 /\ In z arr2.
Proof.
  intros H1 H2.
  pose proof (proj1 (NoDup_count_occ Z.eq_dec arr1) H1 z) as C1.
  pose proof (proj1 (NoDup_count_occ Z.eq_dec arr2) H2 z) as C2.
  split.
  - intros Hin. apply adjacent_dups_count in Hin.
    rewrite count_sorted_concat in Hin.
    split; apply (count_occ_In Z.eq_dec); lia.
  - intros [Hin1 Hin2].
    apply (count_occ_In Z.eq_dec) in Hin1, Hin2.
    apply count_adjacent_dups; [apply sort_sorted |].
    rewrite count_sorted_concat. lia.
Qed.

Lemma common_values_sorted (arr1 arr2 : list Z) :
  NoDup arr1 -> NoDup arr2 ->
  StronglySorted Z.lt (adjacent_dups (sort (concatenate arr1 arr2))).
Proof.
  intros H1 H2. apply adjacent_dups_sorted; [apply sort_sorted |].
  intros z. rewrite count_sorted_concat.
  pose proof (proj1 (NoDup_count_occ Z.eq_dec arr1) H1 z).
  pose proof (proj1 (NoDup_count_occ Z.eq_dec arr2) H2 z). lia.
Qed.

(** ** [argsort]: the stable permutation of positions *)

Lemma insert_by_key_fst (p : Z * Z) (l : list (Z * Z)) :
  map fst (insert_by_key p l) = insert_sorted (fst p) (map fst l).
Proof.
  induction l as [|q l IH]; [reflexivity |].
  simpl. destruct (fst p <=? fst q); simpl; [reflexivity | now rewrite IH].
Qed.

Lemma sort_by_key_fst (l : list (Z * Z)) :
  map fst (sort_by_key l) = sort (map fst l).
Proof.
  induction l as [|p l IH]; [reflexivity |].
  simpl. now rewrite insert_by_key_fst, IH.
Qed.

Lemma insert_by_key_perm (p : Z * Z) (l : list (Z * Z)) :
  Permutation (insert_by_key p l) (p :: l).
Proof.
  induction l as [|q l IH]; simpl.
  - apply Permutation_refl.
  - destruct (fst p <=? fst q).
    + apply Permutation_refl.
    + apply perm_trans with (q :: p :: l); [now apply perm_skip | apply perm_swap].
Qed.

Lemma sort_by_key_perm (l : list (Z * Z)) : Permutation (sort_by_key l) l.
Proof.
  induction l as [|p l IH]; simpl.
  - apply perm_nil.
  - apply perm_trans with (p :: sort_by_key l);
      [apply insert_by_key_perm | now apply perm_skip].
Qed.

Lemma insert_by_key_stable (p : Z * Z) (l : list (Z * Z)) :
  StronglySorted lex_lt l ->
  Forall (position_lt p) l ->
  StronglySorted lex_lt (insert_by_key p l).
Proof.
  induction 1 as [|q l Hs IH Hall]; intros Hpos; simpl.
  - repeat constructor.
  - inversion Hpos as [|? ? Hpq Hpos']; subst.
    rewrite Forall_forall in Hall, Hpos'.
    destruct (Z.leb_spec (fst p) (fst q)) as [Hle | Hgt].
    + constructor; [constructor; [exact Hs | now apply Forall_forall] |].
      constructor.
      * unfold lex_lt, position_lt in *. lia.
      * apply Forall_forall. intros r Hr.
        specialize (Hall r Hr). specialize (Hpos' r Hr).
        unfold lex_lt, position_lt in *. lia.
    + constructor; [apply IH; now apply Forall_forall |].
      apply Forall_forall. intros r Hr.
      apply (Permutation_in _ (insert_by_key_perm p l)) in Hr.
      destruct Hr as [<- | Hr]; [unfold lex_lt; lia | now apply Hall].
Qed.

Lemma sort_by_key_stable (l : list (Z * Z)) :
  StronglySorted position_lt l -> StronglySorted lex_lt (sort_by_key l).
Proof.
  induction 1 as [|p l Hs IH Hall]; simpl; [constructor |].
  apply insert_by_key_stable; [exact IH |].
  apply Forall_forall. intros q Hq.
  apply (Permutation_in _ (sort_by_key_perm l)) in Hq.
  rewrite Forall_forall in Hall. now apply Hall.
Qed.

Lemma enumerate_from_In (x : list Z) (k : nat) (v i : Z) :
  In (v, i) (combine x (map Z.of_nat (seq k (length x)))) <->
  exists n, i = Z.of_nat (k + n) /\ nth_error x n = Some v.
Proof.
  revert k. induction x as [|a x IH]; intros k; simpl.
  - split; [intros [] | intros [[|n] [_ H]]; discriminate].
  - rewrite IH. split.
    + intros [Heq | [n [Hi Hn]]].
      * inversion Heq; subst. exists 0%nat. split; [f_equal; lia | reflexivity].
      * exists (S n). split; [rewrite Hi; f_equal; lia | exact Hn].
    + intros [[|n] [Hi Hn]].
      * left. simpl in Hn. inversion Hn; subst. do 2 f_equal. lia.
      * right. exists n. split; [rewrite Hi; f_equal; lia | exact Hn].
Qed.

Lemma enumerate_In (x : list Z) (v i : Z) :
  In (v, i) (enumerate x) <-> 0 <= i /\ nth_error x (Z.to_nat i) = Some v.
Proof.
  unfold enumerate, arange. rewrite enumerate_from_In. split.
  - intros [n [-> Hn]]. simpl. rewrite Nat2Z.id. split; [lia | exact Hn].
  - intros [Hi Hn]. exists (Z.to_nat i). simpl. split; [lia | exact Hn].
Qed.

Lemma enumerate_from_fst (x : list Z) (k : nat) :
  map fst (combine x (map Z.of_nat (seq k (length x)))) = x.
Proof.
  revert k. induction x as [|a x IH]; intros k; simpl; [reflexivity |].
  now rewrite IH.
Qed.

Lemma enumerate_from_increasing (x : list Z) (k : nat) :
  StronglySorted position_lt (combine x (map Z.of_nat (seq k (length x)))).
Proof.
  revert k. induction x as [|a x IH]; intros k; simpl; [constructor |].
  constructor; [apply IH |].
  apply Forall_forall. intros [v i] Hin.
  apply enumerate_from_In in Hin. destruct Hin as [n [-> _]].
  unfold position_lt. simpl. lia.
Qed.

(** The sorted tagged array behind [argsort]: its values are the sorted
    array, its tags are the positions the values came from, and equal
    values keep the order of their positions. *)
Lemma sort_by_key_enumerate (x : list Z) :
  map fst (sort_by_key (enumerate x)) = sort x /\
  StronglySorted lex_lt (sort_by_key (enumerate x)) /\
  (forall v i, In (v, i) (sort_by_key (enumerate x)) <->
               0 <= i /\ nth_error x (Z.to_nat i) = Some v).
Proof.
  split; [| split].
  - rewrite sort_by_key_fst. unfold enumerate, arange.
    now rewrite enumerate_from_fst.
  - apply sort_by_key_stable. apply enumerate_from_increasing.
  - intros v i. rewrite <- enumerate_In. split; apply Permutation_in;
      [apply sort_by_key_perm | apply Permutation_sym, sort_by_key_perm].
Qed.

(** ** Gathers that stay in bounds *)

Lemma getitem_nth_error {A} (x : list A) (i : Z) (a : A) :
  0 <= i -> nth_error x (Z.to_nat i) = Some a -> getitem x i = inr a.
Proof.
  intros Hi Hn. unfold getitem.
  assert (Hlt : (Z.to_nat i < length x)%nat) by (apply nth_error_Some; congruence).
  destruct (Z.ltb_spec i 0) as [H0 | _]; [lia |].
  destruct (Z.leb_spec 0 i) as [_ | H0]; [| lia].
  destruct (Z.ltb_spec i (Z.of_nat (length x))) as [_ | H1]; [| lia].
  simpl. now rewrite Hn.
Qed.

Lemma take_map {A B} (x : list A) (f : B -> Z) (g : B -> A) (l : list B) :
  (forall b, In b l -> getitem x (f b) = inr (g b)) ->
  take x (map f l) = inr (map g l).
Proof.
  induction l as [|b l IH]; intros H; [reflexivity |].
  cbn [map take]. rewrite (H b (or_introl eq_refl)). cbn [bind].
  rewrite IH; [reflexivity |]. intros b' Hb'. apply H. now right.
Qed.


(** ** The sorted concatenation and its permutation *)

Lemma intersect1d_sorted_values (arr1 arr2 : list Z) :
  intersect1d_sorted arr1 arr2 false = inr (sort (concatenate arr1 arr2), []).
Proof. reflexivity. Qed.

(** The gather [aux[aux_sort_indices]] never leaves the array, and yields
    the sorted array. *)
Lemma intersect1d_sorted_indices (arr1 arr2 : list Z) :
  intersect1d_sorted arr1 arr2 true
  = inr (sort (concatenate arr1 arr2), argsort (concatenate arr1 arr2)).
Proof.
  unfold intersect1d_sorted, argsort.
  destruct (sort_by_key_enumerate (concatenate arr1 arr2)) as [Hfst [_ Hin]].
  rewrite (take_map (concatenate arr1 arr2) snd fst).
  - cbn [bind]. now rewrite Hfst.
  - intros [v i] Hb. apply Hin in Hb. destruct Hb as [Hi Hn].
    now apply getitem_nth_error.
Qed.

Lemma adjacent_mask_tagged (sp : list (Z * Z)) :
  adjacent_mask (map fst sp) = map same_key (adjacent_pairs sp).
Proof.
  rewrite adjacent_mask_pairs, adjacent_pairs_map, map_map. reflexivity.
Qed.

Lemma compress_to_last_tagged {B} (h : Z * Z -> B) (sp : list (Z * Z)) :
  compress (adjacent_mask (map fst sp)) (slice_to_last (map h sp))
  = map (fun pq => h (fst pq)) (matches sp).
Proof.
  rewrite adjacent_mask_tagged, slice_to_last_pairs, adjacent_pairs_map, map_map.
  apply (compress_map_filter same_key (fun pq => h (fst pq))).
Qed.

Lemma compress_from1_tagged {B} (h : Z * Z -> B) (sp : list (Z * Z)) :
  compress (adjacent_mask (map fst sp)) (slice_from1 (map h sp))
  = map (fun pq => h (snd pq)) (matches sp).
Proof.
  rewrite adjacent_mask_tagged, slice_from1_pairs, adjacent_pairs_map, map_map.
  apply (compress_map_filter same_key (fun pq => h (snd pq))).
Qed.

Lemma tagged_values (x : list Z) : map fst (tagged x) = sort x.
Proof. apply sort_by_key_enumerate. Qed.

Lemma tagged_positions (x : list Z) : map snd (tagged x) = argsort x.
Proof. reflexivity. Qed.

Lemma int1d_tagged (x : list Z) :
  adjacent_dups (sort x) = map (fun pq => fst (fst pq)) (matches (tagged x)).
Proof.
  rewrite <- int1d_adjacent_dups, <- tagged_values.
  apply (compress_to_last_tagged fst).
Qed.

Lemma intersect1d_positions_tagged (n1 : nat) (x : list Z) :
  intersect1d_positions n1 (sort x) (argsort x)
  = (map (fun pq => snd (fst pq)) (matches (tagged x)),
     map (fun pq => snd (snd pq) - Z.of_nat n1) (matches (tagged x))).
Proof.
  unfold intersect1d_positions.
  rewrite <- tagged_values, <- tagged_positions.
  rewrite (compress_to_last_tagged snd), (compress_from1_tagged snd), map_map.
  reflexivity.
Qed.

(** With a stable sort, two equal neighbours of the sorted concatenation of
    duplicate-free arrays come from [arr1] and from [arr2], in this order. *)
Lemma matches_cross (arr1 arr2 : list Z) :
  NoDup arr1 -> NoDup arr2 ->
  Forall (crosses arr1 arr2) (matches (tagged (concatenate arr1 arr2))).
Proof.
  intros H1 H2. apply Forall_forall. intros [[v i] [w j]] Hin.
  unfold matches in Hin. apply filter_In in Hin. destruct Hin as [Hadj Hkey].
  unfold same_key in Hkey. cbn [fst snd] in Hkey. apply Z.eqb_eq in Hkey. subst w.
  destruct (sort_by_key_enumerate (concatenate arr1 arr2)) as [_ [Hsorted Hmem]].
  fold (tagged (concatenate arr1 arr2)) in Hsorted, Hmem.
  pose proof (adjacent_pairs_sorted Hsorted) as Hlex.
  rewrite Forall_forall in Hlex. specialize (Hlex _ Hadj).
  destruct (adjacent_pairs_In _ _ Hadj) as [Hp Hq].
  cbn [fst snd] in Hlex, Hp, Hq.
  apply Hmem in Hp, Hq. destruct Hp as [Hi Hvi], Hq as [Hj Hvj].
  assert (Hij : i < j) by (unfold lex_lt in Hlex; cbn [fst snd] in Hlex; lia).
  unfold concatenate in Hvi, Hvj.
  assert (Hjn : (Z.to_nat j < length (arr1 ++ arr2))%nat)
    by (apply nth_error_Some; congruence).
  rewrite length_app in Hjn.
  unfold crosses. cbn [fst snd].
  destruct (Nat.lt_ge_cases (Z.to_nat j) (length arr1)) as [Hj1 | Hj1].
  - (* both positions in arr1: a duplicate *)
    exfalso. rewrite nth_error_app1 in Hvi, Hvj by lia.
    assert (Z.to_nat i = Z.to_nat j); [| lia].
    apply (proj1 (NoDup_nth_error arr1) H1); [lia | congruence].
  - destruct (Nat.lt_ge_cases (Z.to_nat i) (length arr1)) as [Hi1 | Hi1].
    + rewrite nth_error_app1 in Hvi by lia.
      rewrite nth_error_app2 in Hvj by lia.
      replace (Z.to_nat (j - Z.of_nat (length arr1)))
        with (Z.to_nat j - length arr1)%nat by lia.
      repeat split; try lia; assumption.
    + (* both positions in arr2: a duplicate *)
      exfalso. rewrite nth_error_app2 in Hvi, Hvj by lia.
      assert (Z.to_nat i - length arr1 = Z.to_nat j - length arr1)%nat; [| lia].
      apply (proj1 (NoDup_nth_error arr2) H2); [| congruence].
      apply nth_error_Some. congruence.
Qed.

(** ** What [intersect1d] evaluates to *)

Lemma intersect1d_values (arr1 arr2 : ndarray Z) (assume_unique : bool) :
  intersect1d arr1 arr2 assume_unique false
  = inr (Values (common_values assume_unique arr1 arr2)).
Proof.
  unfold intersect1d, intersect1d_prepare, common_values, dedup_or_ravel.
  destruct assume_unique; cbv beta iota zeta delta [negb];
    rewrite intersect1d_sorted_values; cbn [bind];
    now rewrite int1d_adjacent_dups.
Qed.

Lemma intersect1d_assume_unique_indices (arr1 arr2 : ndarray Z) :
  intersect1d arr1 arr2 true true
  = inr (ValuesIndices
           (common_values true arr1 arr2)
           (map (fun pq => snd (fst pq))
                (matches (tagged (concatenate (ravel arr1) (ravel arr2)))))
           (map (fun pq => snd (snd pq) - Z.of_nat (length (ravel arr1)))
                (matches (tagged (concatenate (ravel arr1) (ravel arr2)))))).
Proof.
  unfold intersect1d, intersect1d_prepare, common_values, dedup_or_ravel.
  cbv beta iota zeta delta [negb].
  rewrite intersect1d_sorted_indices. cbn [bind].
  rewrite intersect1d_positions_tagged, int1d_adjacent_dups. reflexivity.
Qed.

Lemma first_index_spec (v : Z) (x : list Z) :
  In v x ->
  0 <= first_index v x /\
  nth_error x (Z.to_nat (first_index v x)) = Some v /\
  (forall i, 0 <= i < first_index v x -> nth_error x (Z.to_nat i) <> Some v).
Proof.
  induction x as [|y x IH]; [intros [] |].
  intros Hin. cbn [first_index].
  destruct (Z.eqb_spec y v) as [-> | Hne].
  - split; [lia |]. split; [reflexivity | intros i Hi; lia].
  - destruct Hin as [Heq | Hin]; [contradiction |].
    destruct (IH Hin) as [H0 [Hnth Hfirst]].
    split; [lia |]. split.
    + replace (Z.to_nat (1 + first_index v x))
        with (S (Z.to_nat (first_index v x))) by lia.
      exact Hnth.
    + intros i Hi. destruct (Z.eq_dec i 0) as [-> | Hi0].
      * simpl. congruence.
      * replace (Z.to_nat i) with (S (Z.to_nat (i - 1))) by lia.
        cbn [nth_error]. apply Hfirst. lia.
Qed.

(** Without [assume_unique], the index arrays hold the first position of
    each common value in the flattened originals. *)
Lemma intersect1d_unique_indices (arr1 arr2 : ndarray Z) :
  intersect1d arr1 arr2 false true
  = inr (ValuesIndices
           (common_values false arr1 arr2)
           (map (fun v => first_index v (ravel arr1)) (common_values false arr1 arr2))
           (map (fun v => first_index v (ravel arr2)) (common_values false arr1 arr2))).
Proof.
  unfold intersect1d, intersect1d_prepare, unique_return_index, common_values,
    dedup_or_ravel.
  cbv beta iota zeta delta [negb].
  rewrite intersect1d_sorted_indices. cbn [bind].
  rewrite intersect1d_positions_tagged, int1d_adjacent_dups.
  set (u1 := unique (ravel arr1)). set (u2 := unique (ravel arr2)).
  pose proof (matches_cross (unique_NoDup (ravel arr1)) (unique_NoDup (ravel arr2)))
    as Hcross.
  fold u1 u2 in Hcross. rewrite Forall_forall in Hcross.
  rewrite int1d_tagged, !map_map.
  rewrite (take_map (map (fun v => first_index v (ravel arr1)) u1)
             (fun pq => snd (fst pq))
             (fun pq => first_index (fst (fst pq)) (ravel arr1))).
  2:{ intros pq Hpq. destruct (Hcross pq Hpq) as [Hi [_ [Hn _]]].
      apply getitem_nth_error; [lia |]. now rewrite nth_error_map, Hn. }
  cbn [bind].
  rewrite (take_map (map (fun v => first_index v (ravel arr2)) u2)
             (fun pq => snd (snd pq) - Z.of_nat (length u1))
             (fun pq => first_index (fst (fst pq)) (ravel arr2))).
  2:{ intros pq Hpq. destruct (Hcross pq Hpq) as [_ [Hj [_ Hn]]].
      apply getitem_nth_error; [lia |]. now rewrite nth_error_map, Hn. }
  reflexivity.
Qed.

Lemma dedup_or_ravel_In (assume_unique : bool) (a : ndarray Z) (v : Z) :
  In v (dedup_or_ravel assume_unique a) <-> In v (ravel a).
Proof.
  destruct assume_unique; simpl; [tauto | apply unique_In].
Qed.

Lemma dedup_or_ravel_NoDup (assume_unique : bool) (a : ndarray Z) :
  (assume_unique = true -> NoDup (ravel a)) ->
  NoDup (dedup_or_ravel assume_unique a).
Proof.
  destruct assume_unique; simpl; intros H; [now apply H | apply unique_NoDup].
Qed.

(** Whatever the flags, [intersect1d] returns, and its array of values is
    [common_values]. *)
Lemma intersect1d_int1d (arr1 arr2 : ndarray Z) (assume_unique return_indices : bool) :
  exists r, intersect1d arr1 arr2 assume_unique return_indices = inr r /\
            int1d_of r = common_values assume_unique arr1 arr2.
Proof.
  destruct return_indices.
  - destruct assume_unique.
    + rewrite intersect1d_assume_unique_indices. eexists. split; reflexivity.
    + rewrite intersect1d_unique_indices. eexists. split; reflexivity.
  - rewrite intersect1d_values. eexists. split; reflexivity.
Qed.

Ltac solve_NoDup :=
  repeat (apply NoDup_cons; [simpl; intuition discriminate |]); apply NoDup_nil.

(** C2: for both values of [assume_unique] (the inputs duplicate-free when
    it is set), the array of values of [intersect1d] is sorted, has no
    duplicate, and holds exactly the values occurring in both inputs; it is
    empty when the first input is empty, and
    [intersect1d([1,2,2,3], [2,3,4])] is [[2,3]]. *)
Theorem intersect1d_sorted_unique_common
        (arr1 arr2 : ndarray Z) (assume_unique return_indices : bool) :
  (assume_unique = true -> NoDup (ravel arr1) /\ NoDup (ravel arr2)) ->
  (exists r,
     intersect1d arr1 arr2 assume_unique return_indices = inr r /\
     StronglySorted Z.le (int1d_of r) /\
     NoDup (int1d_of r) /\
     (forall v, In v (int1d_of r) <-> In v (ravel arr1) /\ In v (ravel arr2)) /\
     (ravel arr1 = [] -> int1d_of r = [])) /\
  intersect1d (NDArray [4%nat] [1; 2; 2; 3]) (NDArray [3%nat] [2; 3; 4]) false false
  = inr (Values [2; 3]).
Proof.
  intros Hunique. split; [| reflexivity].
  destruct (intersect1d_int1d arr1 arr2 assume_unique return_indices) as [r [Hr Hv]].
  exists r. split; [exact Hr |]. rewrite Hv. unfold common_values.
  assert (N1 : NoDup (dedup_or_ravel assume_unique arr1))
    by (apply dedup_or_ravel_NoDup; intros H; now apply Hunique).
  assert (N2 : NoDup (dedup_or_ravel assume_unique arr2))
    by (apply dedup_or_ravel_NoDup; intros H; now apply Hunique).
  pose proof (common_values_sorted N1 N2) as Hsorted.
  assert (Hmem : forall v,
             In v (adjacent_dups (sort (concatenate (dedup_or_ravel assume_unique arr1)
                                                    (dedup_or_ravel assume_unique arr2))))
             <-> In v (ravel arr1) /\ In v (ravel arr2)).
  { intros v. rewrite (common_values_In v N1 N2). now rewrite !dedup_or_ravel_In. }
  split; [now apply StronglySorted_lt_le |].
  split; [now apply StronglySorted_lt_NoDup |].
  split; [exact Hmem |].
  intros Hempty.
  destruct (adjacent_dups _) as [|v V] eqn:E; [reflexivity |].
  exfalso. destruct (proj1 (Hmem v) (or_introl eq_refl)) as [Hin _].
  rewrite Hempty in Hin. exact Hin.
Qed.

Lemma intersect1d_sorted_unique_common_witness :
  (exists r,
     intersect1d (NDArray [2%nat; 2%nat] [7; 1; 5; 3]) (NDArray [3%nat] [5; 9; 7]) true true
     = inr r /\
     StronglySorted Z.le (int1d_of r) /\
     NoDup (int1d_of r) /\
     (forall v, In v (int1d_of r) <->
                In v (ravel (NDArray [2%nat; 2%nat] [7; 1; 5; 3])) /\
                In v (ravel (NDArray [3%nat] [5; 9; 7]))) /\
     (ravel (NDArray [2%nat; 2%nat] [7; 1; 5; 3]) = [] -> int1d_of r = [])) /\
  intersect1d (NDArray [4%nat] [1; 2; 2; 3]) (NDArray [3%nat] [2; 3; 4]) false false
  = inr (Values [2; 3]).
Proof.
  apply (@intersect1d_sorted_unique_common
           (NDArray [2%nat; 2%nat] [7; 1; 5; 3]) (NDArray [3%nat] [5; 9; 7]) true true).
  intros _. split; simpl; solve_NoDup.
Defined.

(** C3: with [assume_unique=False] and [return_indices=True], position [k]
    of the two index arrays holds the first position, in the flattened
    originals, of the [k]-th returned value, so that
    [a[comm1[k]] == b[comm2[k]] == int1d[k]];
    [intersect1d([1,2,3], [3,1,4], return_indices=True)] is
    [([1,3], [0,2], [1,0])]. *)
Theorem intersect1d_first_occurrence_indices (a b : ndarray Z) :
  (exists int1d comm1 comm2,
     intersect1d a b false true = inr (ValuesIndices int1d comm1 comm2) /\
     forall k v, nth_error int1d k = Some v ->
       exists i j,
         nth_error comm1 k = Some i /\ nth_error comm2 k = Some j /\
         0 <= i /\ 0 <= j /\
         nth_error (ravel a) (Z.to_nat i) = Some v /\
         nth_error (ravel b) (Z.to_nat j) = Some v /\
         (forall i', 0 <= i' < i -> nth_error (ravel a) (Z.to_nat i') <> Some v) /\
         (forall j', 0 <= j' < j -> nth_error (ravel b) (Z.to_nat j') <> Some v)) /\
  intersect1d (NDArray [3%nat] [1; 2; 3]) (NDArray [3%nat] [3; 1; 4]) false true
  = inr (ValuesIndices [1; 3] [0; 2] [1; 0]).
Proof.
  split; [| reflexivity].
  rewrite intersect1d_unique_indices.
  eexists _, _, _. split; [reflexivity |].
  intros k v Hk.
  assert (Hin : In v (ravel a) /\ In v (ravel b)).
  { apply nth_error_In in Hk. unfold common_values in Hk.
    apply common_values_In in Hk; try (apply dedup_or_ravel_NoDup; discriminate).
    now rewrite !dedup_or_ravel_In in Hk. }
  destruct Hin as [Ha Hb].
  destruct (first_index_spec v (ravel a) Ha) as [Ha0 [Han Haf]].
  destruct (first_index_spec v (ravel b) Hb) as [Hb0 [Hbn Hbf]].
  exists (first_index v (ravel a)), (first_index v (ravel b)).
  rewrite !nth_error_map, Hk. cbn [option_map].
  repeat (split; [first [reflexivity | assumption] |]). assumption.
Qed.

Lemma take_in_bounds {A} (x : list A) (idx : list Z) :
  Forall (fun i => 0 <= i < Z.of_nat (length x)) idx ->
  exists r, take x idx = inr r.
Proof.
  induction 1 as [|i idx Hi Hall [r IH]]; [now exists [] |].
  destruct (nth_error x (Z.to_nat i)) as [a |] eqn:E.
  - exists (a :: r). cbn [take].
    rewrite (@getitem_nth_error _ x i a); [| lia | exact E].
    cbn [bind]. now rewrite IH.
  - apply nth_error_None in E. lia.
Qed.

Lemma positions_in_bounds (arr1 arr2 : list Z) :
  NoDup arr1 -> NoDup arr2 ->
  exists aux aux_sort_indices,
    intersect1d_sorted arr1 arr2 true = inr (aux, aux_sort_indices) /\
    Forall (fun i => 0 <= i < Z.of_nat (length arr1))
           (fst (intersect1d_positions (length arr1) aux aux_sort_indices)) /\
    Forall (fun j => 0 <= j < Z.of_nat (length arr2))
           (snd (intersect1d_positions (length arr1) aux aux_sort_indices)).
Proof.
  intros N1 N2.
  exists (sort (concatenate arr1 arr2)), (argsort (concatenate arr1 arr2)).
  split; [apply intersect1d_sorted_indices |].
  rewrite intersect1d_positions_tagged. cbn [fst snd].
  pose proof (matches_cross N1 N2) as Hcross. rewrite Forall_forall in Hcross.
  split; apply Forall_forall; intros i Hi; apply in_map_iff in Hi;
    destruct Hi as [pq [<- Hpq]]; destruct (Hcross pq Hpq) as [H1 [H2 _]];
    assumption.
Qed.

(** C4: with [return_indices=True] and the concatenated arrays
    duplicate-free (after deduplication, or on the caller's word), every
    entry of [arr1_indices] is a position of [arr1] and every entry of
    [arr2_indices], which is a sorted position less [arr1.size], is a
    position of [arr2]; so the gathers from [ind1] and [ind2] stay in
    bounds.  The order of equal values comes from the stable [argsort]. *)
Theorem intersect1d_positions_in_bounds (a b : ndarray Z) (assume_unique : bool) :
  (assume_unique = true -> NoDup (ravel a) /\ NoDup (ravel b)) ->
  let '((arr1, ind1), (arr2, ind2)) := intersect1d_prepare a b assume_unique true in
  exists aux aux_sort_indices,
    intersect1d_sorted arr1 arr2 true = inr (aux, aux_sort_indices) /\
    let '(arr1_indices, arr2_indices) :=
      intersect1d_positions (length arr1) aux aux_sort_indices in
    Forall (fun i => 0 <= i < Z.of_nat (length arr1)) arr1_indices /\
    Forall (fun j => 0 <= j < Z.of_nat (length arr2)) arr2_indices /\
    (assume_unique = false ->
     length ind1 = length arr1 /\ length ind2 = length arr2 /\
     exists comm1 comm2,
       take ind1 arr1_indices = inr comm1 /\ take ind2 arr2_indices = inr comm2).
Proof.
  intros Hunique.
  unfold intersect1d_prepare, unique_return_index.
  destruct assume_unique; cbv beta iota zeta delta [negb].
  - destruct (Hunique eq_refl) as [N1 N2].
    destruct (positions_in_bounds N1 N2) as [aux [perm [Hs [B1 B2]]]].
    exists aux, perm. split; [exact Hs |].
    destruct (intersect1d_positions _ aux perm) as [i1 i2]. cbn [fst snd] in B1, B2.
    split; [exact B1 |]. split; [exact B2 | discriminate].
  - destruct (positions_in_bounds (unique_NoDup (ravel a)) (unique_NoDup (ravel b)))
      as [aux [perm [Hs [B1 B2]]]].
    exists aux, perm. split; [exact Hs |].
    destruct (intersect1d_positions _ aux perm) as [i1 i2]. cbn [fst snd] in B1, B2.
    split; [exact B1 |]. split; [exact B2 |]. intros _.
    rewrite !length_map. split; [reflexivity |]. split; [reflexivity |].
    destruct (@take_in_bounds _ (map (fun v => first_index v (ravel a)) (unique (ravel a))) i1)
      as [c1 Hc1]; [now rewrite length_map |].
    destruct (@take_in_bounds _ (map (fun v => first_index v (ravel b)) (unique (ravel b))) i2)
      as [c2 Hc2]; [now rewrite length_map |].
    now exists c1, c2.
Qed.

Lemma intersect1d_positions_in_bounds_witness :
  let '((arr1, ind1), (arr2, ind2)) :=
    intersect1d_prepare (NDArray [2%nat; 2%nat] [7; 1; 5; 3]) (NDArray [3%nat] [5; 9; 7])
                        true true in
  exists aux aux_sort_indices,
    intersect1d_sorted arr1 arr2 true = inr (aux, aux_sort_indices) /\
    let '(arr1_indices, arr2_indices) :=
      intersect1d_positions (length arr1) aux aux_sort_indices in
    Forall (fun i => 0 <= i < Z.of_nat (length arr1)) arr1_indices /\
    Forall (fun j => 0 <= j < Z.of_nat (length arr2)) arr2_indices /\
    (true = false ->
     length ind1 = length arr1 /\ length ind2 = length arr2 /\
     exists comm1 comm2,
       take ind1 arr1_indices = inr comm1 /\ take ind2 arr2_indices = inr comm2).
Proof.
  apply (@intersect1d_positions_in_bounds
           (NDArray [2%nat; 2%nat] [7; 1; 5; 3]) (NDArray [3%nat] [5; 9; 7]) true).
  intros _. split; simpl; solve_NoDup.
Defined.

(** With [assume_unique=True] on an array that has duplicates, as the
    docstring warns, a value of one input alone is returned and an index
    falls out of bounds. *)
Example assume_unique_with_duplicates :
  intersect1d (NDArray [2%nat] [5; 5]) (NDArray [1%nat] [7]) true true
  = inr (ValuesIndices [5] [0] [-1]).
Proof. reflexivity. Qed.

(** A permutation that sorts the values but puts an [arr2] entry before
    its equal from [arr1] sends both positions out of bounds. *)
Example unstable_order_out_of_bounds :
  intersect1d_positions 1 [5; 5] [1; 0] = ([1], [-1]).
Proof. reflexivity. Qed.

(** C10: with [return_indices=True], whatever [assume_unique], the call
    returns a tuple of three arrays, and the two index arrays are as long
    as the array of values. *)
Theorem intersect1d_indices_lengths (a b : ndarray Z) (assume_unique : bool) :
  exists int1d comm1 comm2,
    intersect1d a b assume_unique true = inr (ValuesIndices int1d comm1 comm2) /\
    length comm1 = length int1d /\ length comm2 = length int1d.
Proof.
  destruct assume_unique.
  - rewrite intersect1d_assume_unique_indices.
    eexists _, _, _. split; [reflexivity |].
    unfold common_values, dedup_or_ravel.
    rewrite int1d_tagged, !length_map. split; reflexivity.
  - rewrite intersect1d_unique_indices.
    eexists _, _, _. split; [reflexivity |].
    rewrite !length_map. split; reflexivity.
Qed.

(** ** [isin] *)

Lemma in1d_length (ar1 ar2 : ndarray Z) (assume_unique invert : bool) :
  length (in1d ar1 ar2 assume_unique invert) = length (ravel ar1).
Proof. rewrite in1d_eq. apply length_map. Qed.

Lemma in1d_invert (ar1 ar2 : ndarray Z) (assume_unique : bool) :
  in1d ar1 ar2 assume_unique true = map negb (in1d ar1 ar2 assume_unique false).
Proof.
  rewrite !in1d_eq, map_map. apply map_ext. intros q. reflexivity.
Qed.

Lemma reshape_same_size {A} (x : list A) (s : list nat) :
  size_of_shape s = length x -> reshape x s = inr (NDArray s x).
Proof.
  intros H. unfold reshape. now rewrite (proj2 (Nat.eqb_eq _ _) H).
Qed.

(** C6: [isin(x, y, invert=True)] is the element-wise negation of
    [isin(x, y, invert=False)], and both have the shape of [x]. *)
Theorem isin_invert_negation (x y : ndarray Z) (assume_unique : bool) :
  wf_ndarray x ->
  exists inverted plain,
    isin x y assume_unique true = inr inverted /\
    isin x y assume_unique false = inr plain /\
    shape inverted = shape x /\
    shape plain = shape x /\
    data inverted = map negb (data plain) /\
    wf_ndarray inverted /\ wf_ndarray plain.
Proof.
  intros Hwf. unfold isin.
  exists (NDArray (shape x) (in1d x y assume_unique true)),
         (NDArray (shape x) (in1d x y assume_unique false)).
  unfold wf_ndarray in *. cbn [shape data].
  rewrite !reshape_same_size by (now rewrite in1d_length).
  rewrite !in1d_length.
  repeat (split; [first [reflexivity | assumption | apply in1d_invert] |]).
  assumption.
Qed.

Lemma isin_invert_negation_witness :
  exists inverted plain,
    isin (NDArray [2%nat; 2%nat] [4; 1; 9; 1]) (NDArray [3%nat] [1; 4; 4]) false true
    = inr inverted /\
    isin (NDArray [2%nat; 2%nat] [4; 1; 9; 1]) (NDArray [3%nat] [1; 4; 4]) false false
    = inr plain /\
    shape inverted = shape (NDArray [2%nat; 2%nat] [4; 1; 9; 1]) /\
    shape plain = shape (NDArray [2%nat; 2%nat] [4; 1; 9; 1]) /\
    data inverted = map negb (data plain) /\
    wf_ndarray inverted /\ wf_ndarray plain.
Proof.
  apply (@isin_invert_negation
           (NDArray [2%nat; 2%nat] [4; 1; 9; 1]) (NDArray [3%nat] [1; 4; 4]) false).
  reflexivity.
Defined.

Example isin_scenario :
  isin (NDArray [2%nat; 2%nat] [4; 1; 9; 1]) (NDArray [3%nat] [1; 4; 4]) false false
  = inr (NDArray [2%nat; 2%nat] [true; true; false; true]).
Proof. reflexivity. Qed.

(** C8: [in1d] and [isin] return the same result whatever
    [assume_unique]: the flag is accepted and never read. *)
Theorem assume_unique_ignored (Q R : ndarray Z) (flag flag' invert : bool) :
  in1d Q R flag invert = in1d Q R flag' invert /\
  isin Q R flag invert = isin Q R flag' invert.
Proof. split; reflexivity. Qed.

(** ** [all] and [any] *)

(** C7: in a fusion context, [all] and [any] with [keepdims=True] raise
    [NotImplementedError] once the context has been queried: no reduction
    is dispatched, no argument checked. *)
Theorem keepdims_in_fusion_raises
        {Arr Axis Res : Type} (rt : runtime Arr Axis Res)
        (a : Arr) (axis : option Axis) (out : option Arr) :
  is_fusing rt = true ->
  all rt a axis out true
  = ([CallIsFusing],
     inl (NotImplementedError "cupy.all does not support `keepdims` in fusion yet.")) /\
  any rt a axis out true
  = ([CallIsFusing],
     inl (NotImplementedError "cupy.any does not support `keepdims` in fusion yet.")).
Proof.
  intros Hfusing. unfold all, any. rewrite Hfusing. split; reflexivity.
Qed.

Lemma keepdims_in_fusion_raises_witness :
  all fusing_runtime [true; false] None None true
  = ([CallIsFusing],
     inl (NotImplementedError "cupy.all does not support `keepdims` in fusion yet.")) /\
  any fusing_runtime [true; false] None None true
  = ([CallIsFusing],
     inl (NotImplementedError "cupy.any does not support `keepdims` in fusion yet.")).
Proof.
  apply (@keepdims_in_fusion_raises _ _ _ fusing_runtime [true; false] None None).
  reflexivity.
Defined.

Example fusion_without_keepdims :
  all fusing_runtime [true; false] None None false
  = ([CallIsFusing; CallReduction KernelAll], inr false).
Proof. reflexivity. Qed.

(** ** The store: what a call leaves untouched *)

Lemma unchanged_below_refl (n : nat) (s : Store.store) :
  (n <= length s)%nat -> unchanged_below n s s.
Proof. intros H. split; [exact H | reflexivity]. Qed.

Lemma unchanged_below_trans (n : nat) (s1 s2 s3 : Store.store) :
  unchanged_below n s1 s2 -> unchanged_below n s2 s3 -> unchanged_below n s1 s3.
Proof.
  intros [L12 H12] [L23 H23]. split; [exact L23 |].
  intros i Hi. now rewrite H23, H12.
Qed.

Lemma keeps_ret (n : nat) {A} (a : A) (P : A -> Prop) :
  P a -> keeps n (Store.sret a) P.
Proof.
  intros HP s Hs. split; [now apply unchanged_below_refl |].
  simpl. intros a' H. inversion H. now subst.
Qed.

Lemma keeps_raise (n : nat) {A} (e : exn) (P : A -> Prop) :
  keeps n (Store.sraise e) P.
Proof.
  intros s Hs. split; [now apply unchanged_below_refl | discriminate].
Qed.

Lemma keeps_bind (n : nat) {A B} (c : Store.st A) (k : A -> Store.st B)
      (P : A -> Prop) (Q : B -> Prop) :
  keeps n c P -> (forall a, P a -> keeps n (k a) Q) ->
  keeps n (Store.sbind c k) Q.
Proof.
  intros Hc Hk s Hs. unfold Store.sbind.
  destruct (Hc s Hs) as [Hu HP].
  destruct (c s) as [[e | a] s1]; cbn [fst snd] in *.
  - split; [exact Hu | discriminate].
  - destruct (Hk a (HP a eq_refl) s1 (proj1 Hu)) as [Hu' HQ].
    split; [now apply unchanged_below_trans with s1 | exact HQ].
Qed.

Lemma keeps_weaken (n : nat) {A} (c : Store.st A) (P Q : A -> Prop) :
  keeps n c P -> (forall a, P a -> Q a) -> keeps n c Q.
Proof.
  intros Hc HPQ s Hs. destruct (Hc s Hs) as [Hu HP].
  split; [exact Hu | intros a Ha; now apply HPQ, HP].
Qed.

Lemma keeps_read_int (n : nat) (a : Store.array) :
  keeps n (Store.read_int a) (fun _ => True).
Proof.
  intros s Hs. unfold Store.read_int.
  destruct (nth_error s (Store.base a)) as [[x | x] |];
    (split; [now apply unchanged_below_refl | trivial]).
Qed.

Lemma keeps_read_bool (n : nat) (a : Store.array) :
  keeps n (Store.read_bool a) (fun _ => True).
Proof.
  intros s Hs. unfold Store.read_bool.
  destruct (nth_error s (Store.base a)) as [[x | x] |];
    (split; [now apply unchanged_below_refl | trivial]).
Qed.

Lemma keeps_alloc (n : nat) (b : Store.buffer) (m : nat) :
  keeps n (Store.alloc b m) (fresh n).
Proof.
  intros s Hs. unfold Store.alloc. cbn [fst snd]. split.
  - split; [rewrite length_app; lia |].
    intros i Hi. apply nth_error_app1. lia.
  - intros a H. inversion H. unfold fresh. simpl. exact Hs.
Qed.

Lemma set_nth_length {A} (i : nat) (b : A) (l : list A) :
  length (Store.set_nth i b l) = length l.
Proof.
  revert i. induction l as [|a l IH]; intros [|i]; simpl; auto.
Qed.

Lemma set_nth_other {A} (i j : nat) (b : A) (l : list A) :
  i <> j -> nth_error (Store.set_nth i b l) j = nth_error l j.
Proof.
  revert i j. induction l as [|a l IH]; intros [|i] [|j] H; simpl; auto.
  contradiction.
Qed.


(** A write to a fresh array leaves the older buffers alone. *)
Lemma keeps_write_int (n : nat) (a : Store.array) (x : list Z) :
  fresh n a -> keeps n (Store.write_int a x) (fun _ => True).
Proof.
  intros Hf s Hs. unfold Store.write_int.
  destruct (nth_error s (Store.base a)) as [[old | old] |];
    try (split; [now apply unchanged_below_refl | trivial]).
  cbn [fst snd]. split; [| trivial].
  split; [now rewrite set_nth_length |].
  intros i Hi. apply set_nth_other. unfold fresh in Hf. lia.
Qed.

Create HintDb keeps.

#[local] Hint Resolve keeps_read_int keeps_read_bool keeps_alloc : keeps.

(** One step of a computation: the rule for the first command, then the
    rest under its postcondition. *)
Ltac keeps_step :=
  eapply keeps_bind; [solve [eauto with keeps] | intros ? ?].

Ltac keeps_new :=
  first [apply keeps_alloc | eapply keeps_weaken; [apply keeps_alloc | trivial]].

Lemma keeps_any (n : nat) {A} (c : Store.st A) (P : A -> Prop) :
  keeps n c P -> keeps n c (fun _ => True).
Proof. intros H. eapply keeps_weaken; [exact H | trivial]. Qed.

Lemma keeps_cupy_sort (n : nat) (a : Store.array) :
  keeps n (Store.cupy_sort a) (fresh n).
Proof. unfold Store.cupy_sort, Store.new_int. keeps_step. keeps_new. Qed.

Lemma keeps_cupy_searchsorted (n : nat) (a v : Store.array) (sd : side) :
  keeps n (Store.cupy_searchsorted a v sd) (fresh n).
Proof.
  unfold Store.cupy_searchsorted, Store.new_int. do 2 keeps_step. keeps_new.
Qed.

Lemma keeps_cupy_unique (n : nat) (a : Store.array) :
  keeps n (Store.cupy_unique a) (fresh n).
Proof. unfold Store.cupy_unique, Store.new_int. keeps_step. keeps_new. Qed.

Lemma keeps_cupy_unique_index (n : nat) (a : Store.array) :
  keeps n (Store.cupy_unique_index a) (fun _ => True).
Proof.
  unfold Store.cupy_unique_index, Store.new_int. do 3 keeps_step.
  now apply keeps_ret.
Qed.

Lemma keeps_cupy_concatenate (n : nat) (a b : Store.array) :
  keeps n (Store.cupy_concatenate a b) (fresh n).
Proof.
  unfold Store.cupy_concatenate, Store.new_int. do 2 keeps_step. keeps_new.
Qed.

Lemma keeps_cupy_argsort (n : nat) (a : Store.array) :
  keeps n (Store.cupy_argsort a) (fresh n).
Proof. unfold Store.cupy_argsort, Store.new_int. keeps_step. keeps_new. Qed.

Lemma keeps_cupy_zeros (n m : nat) : keeps n (Store.cupy_zeros m) (fresh n).
Proof. unfold Store.cupy_zeros, Store.new_bool. keeps_new. Qed.

Lemma keeps_cupy_ones (n m : nat) : keeps n (Store.cupy_ones m) (fresh n).
Proof. unfold Store.cupy_ones, Store.new_bool. keeps_new. Qed.

Lemma keeps_equal (n : nat) (a b : Store.array) :
  keeps n (Store.equal a b) (fresh n).
Proof. unfold Store.equal, Store.new_bool. do 2 keeps_step. keeps_new. Qed.

Lemma keeps_not_equal (n : nat) (a b : Store.array) :
  keeps n (Store.not_equal a b) (fresh n).
Proof. unfold Store.not_equal, Store.new_bool. do 2 keeps_step. keeps_new. Qed.

Lemma keeps_subtract_scalar (n : nat) (a : Store.array) (k : Z) :
  keeps n (Store.subtract_scalar a k) (fresh n).
Proof. unfold Store.subtract_scalar, Store.new_int. keeps_step. keeps_new. Qed.

Lemma keeps_getitem_index (n : nat) (a idx : Store.array) :
  keeps n (Store.getitem_index a idx) (fresh n).
Proof.
  unfold Store.getitem_index, Store.new_int. do 2 keeps_step.
  destruct (take _ _); [apply keeps_raise | keeps_new].
Qed.

Lemma keeps_getitem_mask (n : nat) (a mask : Store.array) :
  keeps n (Store.getitem_mask a mask) (fresh n).
Proof. unfold Store.getitem_mask, Store.new_int. do 2 keeps_step. keeps_new. Qed.

(** The in-place sort writes to its operand only. *)
Lemma keeps_ndarray_sort (n : nat) (a : Store.array) :
  fresh n a -> keeps n (Store.ndarray_sort a) (fun _ => True).
Proof.
  intros Hf. unfold Store.ndarray_sort. keeps_step. now apply keeps_write_int.
Qed.

Lemma keeps_bound (n : nat) (x : option Store.array) :
  keeps n (Store.bound x) (fun _ => True).
Proof. destruct x; [now apply keeps_ret | apply keeps_raise]. Qed.

Lemma keeps_ndarray_reshape (n : nat) (a : Store.array) (s : list nat) :
  keeps n (Store.ndarray_reshape a s) (fun _ => True).
Proof.
  unfold Store.ndarray_reshape.
  destruct (Nat.eqb _ _); [now apply keeps_ret | apply keeps_raise].
Qed.

#[local] Hint Resolve keeps_cupy_sort keeps_cupy_searchsorted keeps_cupy_unique
  keeps_cupy_unique_index keeps_cupy_concatenate keeps_cupy_argsort
  keeps_cupy_zeros keeps_cupy_ones keeps_equal keeps_not_equal
  keeps_subtract_scalar keeps_getitem_index keeps_getitem_mask keeps_bound
  keeps_ndarray_reshape : keeps.

Lemma keeps_in1d (n : nat) (ar1 ar2 : Store.array) (assume_unique invert : bool) :
  keeps n (Store.in1d ar1 ar2 assume_unique invert) (fun _ => True).
Proof.
  unfold Store.in1d.
  destruct (_ || _).
  - destruct invert; eapply keeps_any; eauto with keeps.
  - do 3 keeps_step. destruct invert; eapply keeps_any; eauto with keeps.
Qed.

Lemma keeps_isin (n : nat) (element test_elements : Store.array)
      (assume_unique invert : bool) :
  keeps n (Store.isin element test_elements assume_unique invert) (fun _ => True).
Proof.
  unfold Store.isin.
  eapply keeps_bind; [apply keeps_in1d | intros ? ?]. eauto with keeps.
Qed.

Lemma keeps_union1d (n : nat) (arr1 arr2 : Store.array) :
  keeps n (Store.union1d arr1 arr2) (fun _ => True).
Proof.
  unfold Store.union1d. keeps_step. eapply keeps_any; eauto with keeps.
Qed.

(** [aux] is the fresh concatenation, so sorting it in place touches no
    older buffer. *)
Lemma keeps_intersect1d (n : nat) (arr1 arr2 : Store.array)
      (assume_unique return_indices : bool) :
  keeps n (Store.intersect1d arr1 arr2 assume_unique return_indices) (fun _ => True).
Proof.
  unfold Store.intersect1d.
  eapply keeps_bind with (P := fun _ => True).
  { destruct assume_unique; cbn [negb]; [now apply keeps_ret |].
    destruct return_indices; do 2 keeps_step; now apply keeps_ret. }
  intros [[a1 ind1] [a2 ind2]] _.
  eapply keeps_bind; [apply keeps_cupy_concatenate | intros aux Haux].
  eapply keeps_bind with (P := fun _ => True).
  { destruct return_indices.
    - do 2 keeps_step. now apply keeps_ret.
    - eapply keeps_bind; [now apply keeps_ndarray_sort | intros ? ?].
      now apply keeps_ret. }
  intros [aux' perm] _.
  do 2 keeps_step.
  destruct return_indices; [| now apply keeps_ret].
  do 4 keeps_step.
  destruct assume_unique; cbn [negb]; [now apply keeps_ret |].
  do 4 keeps_step. now apply keeps_ret.
Qed.

Lemma keeps_buffers_kept {A} (c : Store.st A) (s : Store.store) :
  keeps (length s) c (fun _ => True) -> buffers_kept s (snd (c s)).
Proof.
  intros Hk. destruct (Hk s (le_n _)) as [[_ Hu] _].
  intros i b Hi. rewrite Hu; [exact Hi |].
  apply nth_error_Some. congruence.
Qed.

Lemma buffers_kept_elements (s s' : Store.store) (a : Store.array) (x : list Z) :
  buffers_kept s s' -> elements s a = inr x -> elements s' a = inr x.
Proof.
  unfold elements, Store.read_int. intros Hk.
  destruct (nth_error s (Store.base a)) as [[buf | buf] |] eqn:E;
    try discriminate.
  now rewrite (Hk _ _ E).
Qed.

(** C9: [in1d], [isin], [intersect1d] and [union1d] leave every buffer
    that exists when they are called as it is, whatever the outcome; so the
    caller's arrays hold the same elements after the call as before it.
    The only write of the four routines, the in-place sort of
    [intersect1d], lands in the fresh concatenation. *)
Theorem inputs_not_mutated
        (s : Store.store) (a b : Store.array)
        (assume_unique invert return_indices : bool) :
  let after_in1d := snd (Store.in1d a b assume_unique invert s) in
  let after_isin := snd (Store.isin a b assume_unique invert s) in
  let after_intersect1d :=
    snd (Store.intersect1d a b assume_unique return_indices s) in
  let after_union1d := snd (Store.union1d a b s) in
  (buffers_kept s after_in1d /\
   buffers_kept s after_isin /\
   buffers_kept s after_intersect1d /\
   buffers_kept s after_union1d) /\
  (forall s', s' = after_in1d \/ s' = after_isin \/
              s' = after_intersect1d \/ s' = after_union1d ->
     (forall x, elements s a = inr x -> elements s' a = inr x) /\
     (forall y, elements s b = inr y -> elements s' b = inr y)).
Proof.
  intros after_in1d after_isin after_intersect1d after_union1d.
  assert (H : buffers_kept s after_in1d /\ buffers_kept s after_isin /\
              buffers_kept s after_intersect1d /\ buffers_kept s after_union1d).
  { repeat split; apply keeps_buffers_kept;
      [apply keeps_in1d | apply keeps_isin | apply keeps_intersect1d
      | apply keeps_union1d]. }
  split; [exact H |].
  destruct H as [H1 [H2 [H3 H4]]].
  intros s' [-> | [-> | [-> | ->]]]; split; intros x Hx;
    eapply buffers_kept_elements; eassumption.
Qed.

(** The in-place sort does write: on a caller's array it would show. *)
Example ndarray_sort_writes :
  Store.ndarray_sort (Store.Array 0 1 [2%nat]) [Store.IntBuffer [3; 2; 1; 0]]
  = (inr tt, [Store.IntBuffer [3; 1; 2; 0]]).
Proof. reflexivity. Qed.

(** With [assume_unique=True] the inputs are only viewed; the sorted
    buffer is the concatenation. *)
Example intersect1d_sorts_the_concatenation :
  Store.intersect1d (Store.Array 0 0 [3%nat]) (Store.Array 1 0 [3%nat]) true false
                    [Store.IntBuffer [3; 1; 2]; Store.IntBuffer [2; 3; 4]]
  = (inr (Store.One (Store.Array 4 0 [2%nat])),
     [Store.IntBuffer [3; 1; 2]; Store.IntBuffer [2; 3; 4];
      Store.IntBuffer [1; 2; 2; 3; 3; 4];
      Store.BoolBuffer [false; true; false; true; false];
      Store.IntBuffer [2; 3]]).
Proof. reflexivity. Qed.

(** ** The store routines compute what the routines on values compute *)

Lemma holds_int_size (s : Store.store) (a : Store.array) (x : list Z) :
  holds_int s a x -> Store.size a = length x.
Proof. intros [buf [_ [_ H]]]. exact H. Qed.

Lemma read_int_holds (s : Store.store) (a : Store.array) (x : list Z) :
  holds_int s a x -> Store.read_int a s = (inr x, s).
Proof.
  intros [buf [Hb [Hw _]]]. unfold Store.read_int. now rewrite Hb, Hw.
Qed.

Lemma read_bool_holds (s : Store.store) (a : Store.array) (x : list bool) :
  holds_bool s a x -> Store.read_bool a s = (inr x, s).
Proof.
  intros [buf [Hb [Hw _]]]. unfold Store.read_bool. now rewrite Hb, Hw.
Qed.

Lemma holds_int_app (s t : Store.store) (a : Store.array) (x : list Z) :
  holds_int s a x -> holds_int (s ++ t) a x.
Proof.
  intros [buf [Hb H]]. exists buf. split; [| exact H].
  rewrite nth_error_app1; [exact Hb |]. apply nth_error_Some. congruence.
Qed.

Lemma holds_bool_app (s t : Store.store) (a : Store.array) (x : list bool) :
  holds_bool s a x -> holds_bool (s ++ t) a x.
Proof.
  intros [buf [Hb H]]. exists buf. split; [| exact H].
  rewrite nth_error_app1; [exact Hb |]. apply nth_error_Some. congruence.
Qed.

Lemma window_whole {A} (x : list A) (n : nat) :
  Store.window (Store.Array n 0 [length x]) x = x.
Proof.
  unfold Store.window, Store.size. cbn [Store.ashape Store.offset size_of_shape fold_right].
  rewrite Nat.mul_1_r, skipn_0. apply firstn_all.
Qed.

Lemma size_1d (b o n : nat) : Store.size (Store.Array b o [n]) = n.
Proof. unfold Store.size. simpl. apply Nat.mul_1_r. Qed.

Lemma nth_error_last_buffer (s : Store.store) (b : Store.buffer) :
  nth_error (s ++ [b]) (length s) = Some b.
Proof. rewrite nth_error_app2, Nat.sub_diag; [reflexivity | lia]. Qed.

Lemma holds_int_new (s : Store.store) (x : list Z) :
  holds_int (s ++ [Store.IntBuffer x]) (Store.Array (length s) 0 [length x]) x.
Proof.
  exists x. cbn [Store.base]. split; [apply nth_error_last_buffer |].
  split; [apply window_whole | apply size_1d].
Qed.

Lemma holds_bool_new (s : Store.store) (x : list bool) :
  holds_bool (s ++ [Store.BoolBuffer x]) (Store.Array (length s) 0 [length x]) x.
Proof.
  exists x. cbn [Store.base]. split; [apply nth_error_last_buffer |].
  split; [apply window_whole | apply size_1d].
Qed.

Lemma holds_int_ravel (s : Store.store) (a : Store.array) (x : list Z) :
  holds_int s a x -> holds_int s (Store.ndarray_ravel a) x.
Proof.
  intros [buf [Hb [Hw Hs]]]. exists buf. unfold Store.ndarray_ravel.
  cbn [Store.base]. split; [exact Hb |]. rewrite size_1d. split; [| exact Hs].
  unfold Store.window in *. now rewrite size_1d.
Qed.

Lemma firstn_tl {A} (n : nat) (l : list A) :
  firstn n (tl l) = tl (firstn (S n) l).
Proof. destruct l as [|h l]; [now rewrite !firstn_nil | reflexivity]. Qed.

Lemma holds_int_view_from1 (s : Store.store) (a : Store.array) (x : list Z) :
  holds_int s a x -> holds_int s (Store.view_from1 a) (slice_from1 x).
Proof.
  intros [buf [Hb [Hw Hs]]]. exists buf. unfold Store.view_from1, slice_from1.
  cbn [Store.base]. split; [exact Hb |]. rewrite size_1d.
  unfold Store.window in *. rewrite size_1d. cbn [Store.offset].
  destruct (Store.size a) as [|m] eqn:E.
  - destruct x; [split; reflexivity | discriminate].
  - cbn [Nat.min]. replace (S m - 1)%nat with m by lia.
    rewrite Nat.add_comm, <- skipn_skipn.
    change (skipn 1 (skipn (Store.offset a) buf)) with (tl (skipn (Store.offset a) buf)).
    rewrite firstn_tl, Hw. split; [reflexivity |].
    destruct x; simpl in *; lia.
Qed.

Lemma holds_int_view_to_last (s : Store.store) (a : Store.array) (x : list Z) :
  holds_int s a x -> holds_int s (Store.view_to_last a) (slice_to_last x).
Proof.
  intros [buf [Hb [Hw Hs]]]. exists buf. unfold Store.view_to_last, slice_to_last.
  cbn [Store.base]. split; [exact Hb |]. rewrite size_1d.
  unfold Store.window in *. rewrite size_1d. cbn [Store.offset].
  rewrite removelast_firstn_len, <- Hs. split.
  - rewrite <- Hw, firstn_firstn. f_equal. lia.
  - rewrite length_firstn. lia.
Qed.

Lemma sbind_run {A B} (c : Store.st A) (k : A -> Store.st B)
      (s s' : Store.store) (a : A) :
  c s = (inr a, s') -> Store.sbind c k s = k a s'.
Proof. intros H. unfold Store.sbind. now rewrite H. Qed.

Lemma sbind_raise {A B} (c : Store.st A) (k : A -> Store.st B)
      (s s' : Store.store) (e : exn) :
  c s = (inl e, s') -> Store.sbind c k s = (inl e, s').
Proof. intros H. unfold Store.sbind. now rewrite H. Qed.

Lemma holds_int_sorted (s : Store.store) (x : list Z) :
  holds_int (s ++ [Store.IntBuffer (sort x)])
            (Store.Array (length s) 0 [length x]) (sort x).
Proof. rewrite <- (sort_length x). apply holds_int_new. Qed.

(** Goals [holds_int s a x] and [holds_bool s a x] along a run: the array
    is the one just allocated, or it held its elements before the last
    allocation, or it is a view of such an array. *)
Ltac solve_holds :=
  first
    [ eassumption
    | apply holds_int_new
    | apply holds_bool_new
    | apply holds_int_sorted
    | apply holds_int_app; solve_holds
    | apply holds_bool_app; solve_holds
    | apply holds_int_ravel; solve_holds
    | apply holds_int_view_from1; solve_holds
    | apply holds_int_view_to_last; solve_holds ].

(** Run the next command of a sequence by its equation. *)
Ltac run_read :=
  first
    [ erewrite sbind_run by (apply read_int_holds; solve_holds)
    | erewrite sbind_run by (apply read_bool_holds; solve_holds) ].

Lemma cupy_sort_run (s : Store.store) (a : Store.array) (x : list Z) :
  holds_int s a x ->
  Store.cupy_sort a s
  = (inr (Store.Array (length s) 0 [length (sort x)]),
     s ++ [Store.IntBuffer (sort x)]).
Proof. intros H. unfold Store.cupy_sort. run_read. reflexivity. Qed.

Lemma cupy_searchsorted_run (s : Store.store) (a v : Store.array)
      (x q : list Z) (sd : side) :
  holds_int s a x -> holds_int s v q ->
  Store.cupy_searchsorted a v sd s
  = (inr (Store.Array (length s) 0 [length (searchsorted x q sd)]),
     s ++ [Store.IntBuffer (searchsorted x q sd)]).
Proof. intros Ha Hv. unfold Store.cupy_searchsorted. do 2 run_read. reflexivity. Qed.

Lemma cupy_unique_run (s : Store.store) (a : Store.array) (x : list Z) :
  holds_int s a x ->
  Store.cupy_unique a s
  = (inr (Store.Array (length s) 0 [length (unique x)]),
     s ++ [Store.IntBuffer (unique x)]).
Proof. intros H. unfold Store.cupy_unique. run_read. reflexivity. Qed.

Lemma cupy_unique_index_run (s : Store.store) (a : Store.array) (x : list Z) :
  holds_int s a x ->
  Store.cupy_unique_index a s
  = (inr (Store.Array (length s) 0 [length (fst (unique_return_index x))],
          Store.Array (length (s ++ [Store.IntBuffer (fst (unique_return_index x))])) 0
                      [length (snd (unique_return_index x))]),
     (s ++ [Store.IntBuffer (fst (unique_return_index x))])
       ++ [Store.IntBuffer (snd (unique_return_index x))]).
Proof. intros H. unfold Store.cupy_unique_index. run_read. reflexivity. Qed.

Lemma cupy_concatenate_run (s : Store.store) (a b : Store.array) (x y : list Z) :
  holds_int s a x -> holds_int s b y ->
  Store.cupy_concatenate a b s
  = (inr (Store.Array (length s) 0 [length (concatenate x y)]),
     s ++ [Store.IntBuffer (concatenate x y)]).
Proof. intros Ha Hb. unfold Store.cupy_concatenate. do 2 run_read. reflexivity. Qed.

Lemma cupy_argsort_run (s : Store.store) (a : Store.array) (x : list Z) :
  holds_int s a x ->
  Store.cupy_argsort a s
  = (inr (Store.Array (length s) 0 [length (argsort x)]),
     s ++ [Store.IntBuffer (argsort x)]).
Proof. intros H. unfold Store.cupy_argsort. run_read. reflexivity. Qed.

Lemma equal_run (s : Store.store) (a b : Store.array) (x y : list Z) :
  holds_int s a x -> holds_int s b y ->
  Store.equal a b s
  = (inr (Store.Array (length s) 0 [length (zip_with Z.eqb x y)]),
     s ++ [Store.BoolBuffer (zip_with Z.eqb x y)]).
Proof. intros Ha Hb. unfold Store.equal. do 2 run_read. reflexivity. Qed.

Lemma not_equal_run (s : Store.store) (a b : Store.array) (x y : list Z) :
  holds_int s a x -> holds_int s b y ->
  Store.not_equal a b s
  = (inr (Store.Array (length s) 0
                      [length (zip_with (fun i j => negb (i =? j)) x y)]),
     s ++ [Store.BoolBuffer (zip_with (fun i j => negb (i =? j)) x y)]).
Proof. intros Ha Hb. unfold Store.not_equal. do 2 run_read. reflexivity. Qed.

Lemma subtract_scalar_run (s : Store.store) (a : Store.array) (x : list Z) (n : Z) :
  holds_int s a x ->
  Store.subtract_scalar a n s
  = (inr (Store.Array (length s) 0 [length (map (fun i => i - n) x)]),
     s ++ [Store.IntBuffer (map (fun i => i - n) x)]).
Proof. intros H. unfold Store.subtract_scalar. run_read. reflexivity. Qed.

Lemma getitem_mask_run (s : Store.store) (a mask : Store.array)
      (x : list Z) (m : list bool) :
  holds_int s a x -> holds_bool s mask m ->
  Store.getitem_mask a mask s
  = (inr (Store.Array (length s) 0 [length (compress m x)]),
     s ++ [Store.IntBuffer (compress m x)]).
Proof. intros Ha Hm. unfold Store.getitem_mask. do 2 run_read. reflexivity. Qed.

Lemma getitem_index_run (s : Store.store) (a idx : Store.array)
      (x i r : list Z) :
  holds_int s a x -> holds_int s idx i -> take x i = inr r ->
  Store.getitem_index a idx s
  = (inr (Store.Array (length s) 0 [length r]), s ++ [Store.IntBuffer r]).
Proof.
  intros Ha Hi Ht. unfold Store.getitem_index. do 2 run_read.
  rewrite Ht. reflexivity.
Qed.

Lemma getitem_index_raise (s : Store.store) (a idx : Store.array)
      (x i : list Z) (e : exn) :
  holds_int s a x -> holds_int s idx i -> take x i = inl e ->
  Store.getitem_index a idx s = (inl e, s).
Proof.
  intros Ha Hi Ht. unfold Store.getitem_index. do 2 run_read.
  rewrite Ht. reflexivity.
Qed.

Lemma set_nth_last {A} (s : list A) (old new : A) :
  Store.set_nth (length s) new (s ++ [old]) = s ++ [new].
Proof. induction s as [|a s IH]; simpl; [reflexivity | now rewrite IH]. Qed.

(** Sorting the array just allocated in place: its buffer, the last one,
    is replaced by the sorted elements. *)
Lemma ndarray_sort_run (s : Store.store) (x : list Z) :
  Store.ndarray_sort (Store.Array (length s) 0 [length x])
                     (s ++ [Store.IntBuffer x])
  = (inr tt, s ++ [Store.IntBuffer (sort x)]).
Proof.
  unfold Store.ndarray_sort. run_read.
  unfold Store.write_int. cbn [Store.base].
  rewrite nth_error_last_buffer, set_nth_last.
  unfold Store.overwrite. cbn [Store.offset firstn app Nat.add].
  rewrite sort_length, skipn_all, app_nil_r. reflexivity.
Qed.

Lemma size_ravel (a : Store.array) :
  Store.size (Store.ndarray_ravel a) = Store.size a.
Proof. apply size_1d. Qed.

(** Run the next library call of a sequence by its equation. *)
Ltac run_call :=
  first
    [ erewrite sbind_run by (apply cupy_sort_run; solve_holds)
    | erewrite sbind_run by (apply cupy_searchsorted_run; solve_holds)
    | erewrite sbind_run by (apply cupy_unique_run; solve_holds)
    | erewrite sbind_run by (apply cupy_unique_index_run; solve_holds)
    | erewrite sbind_run by (apply cupy_concatenate_run; solve_holds)
    | erewrite sbind_run by (apply cupy_argsort_run; solve_holds)
    | erewrite sbind_run by (apply equal_run; solve_holds)
    | erewrite sbind_run by (apply getitem_mask_run; solve_holds)
    | erewrite sbind_run by (apply subtract_scalar_run; solve_holds) ].

(** [in1d] over the store returns a new boolean array that holds what
    [in1d] on the elements returns. *)
Theorem store_in1d_refines (s : Store.store) (a b : Store.array)
        (x y : list Z) (assume_unique invert : bool) :
  holds_int s a x -> holds_int s b y ->
  exists r,
    fst (Store.in1d a b assume_unique invert s) = inr r /\
    holds_bool (snd (Store.in1d a b assume_unique invert s)) r
               (in1d (NDArray (Store.ashape a) x) (NDArray (Store.ashape b) y)
                     assume_unique invert).
Proof.
  intros Ha Hb. unfold Store.in1d, in1d. cbn [ravel data].
  rewrite !size_ravel, (holds_int_size Ha), (holds_int_size Hb).
  destruct (_ || _).
  - destruct invert; eexists; (split; [reflexivity | apply holds_bool_new]).
  - do 3 run_call.
    destruct invert.
    + erewrite equal_run by solve_holds.
      eexists. split; [reflexivity | apply holds_bool_new].
    + erewrite not_equal_run by solve_holds.
      eexists. split; [reflexivity | apply holds_bool_new].
Qed.

Lemma sbind_assoc {A B C} (c : Store.st A) (k1 : A -> Store.st B)
      (k2 : B -> Store.st C) (s : Store.store) :
  Store.sbind (Store.sbind c k1) k2 s
  = Store.sbind c (fun a => Store.sbind (k1 a) k2) s.
Proof.
  unfold Store.sbind. destruct (c s) as [[e | a] s']; reflexivity.
Qed.

Lemma sbind_ret {A B} (a : A) (k : A -> Store.st B) (s : Store.store) :
  Store.sbind (Store.sret a) k s = k a s.
Proof. reflexivity. Qed.

Lemma holds_bool_reshape (s : Store.store) (r : Store.array)
      (v : list bool) (sh : list nat) :
  holds_bool s r v -> size_of_shape sh = Store.size r ->
  holds_bool s (Store.Array (Store.base r) (Store.offset r) sh) v.
Proof.
  intros [buf [Hb [Hw Hs]]] Hsh. exists buf. cbn [Store.base].
  split; [exact Hb |]. unfold Store.window, Store.size in *.
  cbn [Store.ashape Store.offset]. rewrite Hsh. split; assumption.
Qed.

(** [isin] over the store returns the flat result seen through the shape
    of [element]. *)
Theorem store_isin_refines (s : Store.store) (a b : Store.array)
        (x y : list Z) (assume_unique invert : bool) :
  holds_int s a x -> holds_int s b y ->
  exists r v,
    fst (Store.isin a b assume_unique invert s) = inr r /\
    isin (NDArray (Store.ashape a) x) (NDArray (Store.ashape b) y)
         assume_unique invert = inr v /\
    Store.ashape r = shape v /\
    holds_bool (snd (Store.isin a b assume_unique invert s)) r (data v).
Proof.
  intros Ha Hb.
  destruct (store_in1d_refines assume_unique invert Ha Hb) as [r0 [Hr0 Hh]].
  unfold Store.isin, isin.
  destruct (Store.in1d a b assume_unique invert s) as [[e | r0'] s1] eqn:E;
    cbn [fst snd] in Hr0, Hh; [discriminate |].
  inversion Hr0; subst r0'.
  erewrite sbind_run by exact E.
  pose proof (holds_int_size Ha) as Hsize. unfold Store.size in Hsize.
  assert (Hsame : size_of_shape (Store.ashape a) = Store.size r0).
  { destruct Hh as [buf [_ [_ Hs]]]. rewrite Hs, in1d_length. exact Hsize. }
  unfold Store.ndarray_reshape. rewrite (proj2 (Nat.eqb_eq _ _) Hsame).
  rewrite reshape_same_size by (cbn [shape]; now rewrite in1d_length).
  eexists _, _. split; [reflexivity |]. split; [reflexivity |].
  cbn [Store.ashape shape data fst snd Store.sret].
  split; [reflexivity |]. now apply holds_bool_reshape.
Qed.

(** [union1d] over the store returns a new array that holds what
    [union1d] on the elements returns. *)
Theorem store_union1d_refines (s : Store.store) (a b : Store.array)
        (x y : list Z) :
  holds_int s a x -> holds_int s b y ->
  exists r,
    fst (Store.union1d a b s) = inr r /\
    holds_int (snd (Store.union1d a b s)) r
              (union1d (NDArray (Store.ashape a) x) (NDArray (Store.ashape b) y)).
Proof.
  intros Ha Hb. unfold Store.union1d, union1d. cbn [ravel data].
  run_call. erewrite cupy_unique_run by solve_holds.
  eexists. split; [reflexivity | apply holds_int_new].
Qed.

(** Run a sequence of library calls as far as the equations go. *)
Ltac run :=
  repeat first
    [ rewrite sbind_assoc
    | rewrite sbind_ret
    | run_call
    | erewrite sbind_run by apply ndarray_sort_run
    | progress unfold Store.bound
    | progress cbn [bind ret]
    | progress cbv beta iota ].

(** Run a gather whose outcome on the elements is [E]. *)
Ltac run_gather E :=
  first
    [ erewrite sbind_run
        by (eapply getitem_index_run; [solve_holds | solve_holds | exact E])
    | erewrite sbind_raise
        by (eapply getitem_index_raise; [solve_holds | solve_holds | exact E]) ].

(** [intersect1d] over the store raises what [intersect1d] on the elements
    raises, and otherwise returns new arrays that hold its results. *)
Theorem store_intersect1d_refines (s : Store.store) (a b : Store.array)
        (x y : list Z) (assume_unique return_indices : bool) :
  holds_int s a x -> holds_int s b y ->
  match intersect1d (NDArray (Store.ashape a) x) (NDArray (Store.ashape b) y)
                    assume_unique return_indices with
  | inl e => fst (Store.intersect1d a b assume_unique return_indices s) = inl e
  | inr v =>
      exists r,
        fst (Store.intersect1d a b assume_unique return_indices s) = inr r /\
        result_holds (snd (Store.intersect1d a b assume_unique return_indices s)) r v
  end.
Proof.
  intros Ha Hb.
  unfold Store.intersect1d, intersect1d, intersect1d_prepare, intersect1d_sorted,
    intersect1d_positions, unique_return_index.
  cbn [ravel data].
  destruct assume_unique, return_indices; cbn [negb bind ret]; cbv beta iota zeta.
  4:{ run. eexists. split; [reflexivity | apply holds_int_new]. }
  2:{ run. eexists. split; [reflexivity | apply holds_int_new]. }
  1:{ run. 
      destruct (take (concatenate x y) (argsort (concatenate x y))) as [e | S] eqn:E; cbn [bind].
      - erewrite sbind_raise by (eapply getitem_index_raise; [solve_holds | solve_holds | exact E]). reflexivity.
      - erewrite sbind_run by (eapply getitem_index_run; [solve_holds | solve_holds | exact E]).
        run. rewrite size_ravel, (holds_int_size Ha).
        eexists. split; [reflexivity |].
        cbn [fst snd Store.sret result_holds].
        repeat split; solve_holds. }
  1:{ run. unfold unique_return_index. cbn [fst snd].
      destruct (take (concatenate (unique x) (unique y))
                     (argsort (concatenate (unique x) (unique y))))
        as [e | S] eqn:E; cbn [bind]; run_gather E; [reflexivity |].
      run. rewrite size_1d.
      unfold adjacent_mask.
      destruct (take (map (fun v => first_index v x) (unique x)) _)
        as [e | c1] eqn:E1; cbn [bind]; run_gather E1; [reflexivity |].
      destruct (take (map (fun v => first_index v y) (unique y)) _)
        as [e | c2] eqn:E2; cbn [bind]; run_gather E2; [reflexivity |].
      run. eexists. split; [reflexivity |].
      cbn [fst snd Store.sret result_holds].
      repeat split; solve_holds. }
Qed.

(** On arrays that are in the store, [intersect1d] returns. *)
Corollary store_intersect1d_returns (s : Store.store) (a b : Store.array)
          (x y : list Z) (assume_unique return_indices : bool) :
  holds_int s a x -> holds_int s b y ->
  exists r v,
    intersect1d (NDArray (Store.ashape a) x) (NDArray (Store.ashape b) y)
                assume_unique return_indices = inr v /\
    fst (Store.intersect1d a b assume_unique return_indices s) = inr r /\
    result_holds (snd (Store.intersect1d a b assume_unique return_indices s)) r v.
Proof.
  intros Ha Hb.
  pose proof (store_intersect1d_refines assume_unique return_indices Ha Hb) as H.
  destruct (intersect1d_int1d (NDArray (Store.ashape a) x) (NDArray (Store.ashape b) y)
                              assume_unique return_indices) as [v [Hv _]].
  rewrite Hv in H. destruct H as [r [Hr Hh]]. now exists r, v.
Qed.

(** The refinements at a concrete store: the scenario of the
    specification, with the two arrays in device memory. *)
Example store_scenario :
  let s := [Store.IntBuffer [1; 2; 2; 3]; Store.IntBuffer [2; 3; 4]] in
  let a := Store.Array 0 0 [4%nat] in
  let b := Store.Array 1 0 [3%nat] in
  holds_int s a [1; 2; 2; 3] /\ holds_int s b [2; 3; 4] /\
  (exists r, fst (Store.union1d a b s) = inr r /\
             holds_int (snd (Store.union1d a b s)) r [1; 2; 3; 4]) /\
  (exists r, fst (Store.in1d a b false false s) = inr r /\
             holds_bool (snd (Store.in1d a b false false s)) r
                        [false; true; true; true]).
Proof.
  intros s a b.
  assert (Ha : holds_int s a [1; 2; 2; 3]) by (eexists; repeat split).
  assert (Hb : holds_int s b [2; 3; 4]) by (eexists; repeat split).
  split; [exact Ha |]. split; [exact Hb |]. split.
  - exact (store_union1d_refines Ha Hb).
  - exact (store_in1d_refines false false Ha Hb).
Qed.

(** * Further properties *)

(** ** Strictly increasing arrays are determined by their values *)

Lemma StronglySorted_lt_ext (l1 l2 : list Z) :
  StronglySorted Z.lt l1 -> StronglySorted Z.lt l2 ->
  (forall v, In v l1 <-> In v l2) -> l1 = l2.
Proof.
  intros H1. revert l2.
  induction H1 as [|x t1 Hs1 IH Hall1]; intros l2 H2 Hmem.
  - destruct l2 as [|y t2]; [reflexivity |].
    exfalso. apply (proj2 (Hmem y)). now left.
  - destruct H2 as [|y t2 Hs2 Hall2].
    + exfalso. apply (proj1 (Hmem x)). now left.
    + rewrite Forall_forall in Hall1, Hall2.
      assert (x = y) as ->.
      { destruct (proj1 (Hmem x) (or_introl eq_refl)) as [Hy | Hx]; [now symmetry |].
        destruct (proj2 (Hmem y) (or_introl eq_refl)) as [Hy | Hy]; [exact Hy |].
        specialize (Hall1 y Hy). specialize (Hall2 x Hx). lia. }
      f_equal. apply IH; [exact Hs2 |].
      intros v. split; intros Hv.
      * destruct (proj1 (Hmem v) (or_intror Hv)) as [Hy | Hin]; [| exact Hin].
        specialize (Hall1 v Hv). lia.
      * destruct (proj2 (Hmem v) (or_intror Hv)) as [Hy | Hin]; [| exact Hin].
        specialize (Hall2 v Hv). lia.
Qed.

Lemma StronglySorted_lt_filter (f : Z -> bool) (l : list Z) :
  StronglySorted Z.lt l -> StronglySorted Z.lt (filter f l).
Proof.
  induction 1 as [|x l Hs IH Hall]; simpl; [constructor |].
  destruct (f x); [| exact IH].
  constructor; [exact IH |].
  rewrite Forall_forall in *. intros z Hz. apply filter_In in Hz.
  apply Hall. tauto.
Qed.

Lemma unique_ext (x y : list Z) :
  (forall v, In v x <-> In v y) -> unique x = unique y.
Proof.
  intros H. apply StronglySorted_lt_ext; try apply unique_sorted.
  intros v. rewrite !unique_In. apply H.
Qed.

Lemma unique_fixed (x : list Z) : unique (unique x) = unique x.
Proof.
  apply StronglySorted_lt_ext; try apply unique_sorted.
  intros v. now rewrite !unique_In.
Qed.

Lemma occurs_ext (v : Z) (x y : list Z) :
  (forall w, In w x <-> In w y) -> occurs v x = occurs v y.
Proof.
  intros H. pose proof (occurs_In v x) as Hx. pose proof (occurs_In v y) as Hy.
  rewrite (H v) in Hx.
  destruct (occurs v x), (occurs v y); try reflexivity.
  - symmetry. apply Hy, Hx. reflexivity.
  - apply Hx, Hy. reflexivity.
Qed.

Lemma occurs_false (v : Z) (x : list Z) : ~ In v x -> occurs v x = false.
Proof.
  intros H. destruct (occurs v x) eqn:E; [| reflexivity].
  exfalso. now apply H, occurs_In.
Qed.

(** ** More on [in1d] *)

Lemma in1d_all_true (Q R : ndarray Z) (assume_unique : bool) :
  (forall v, In v (ravel Q) -> In v (ravel R)) ->
  in1d Q R assume_unique false = repeat true (length (ravel Q)) /\
  in1d Q R assume_unique true = repeat false (length (ravel Q)).
Proof.
  intros H. rewrite !in1d_eq, <- !map_const.
  split; apply map_ext_in; intros q Hq;
    rewrite (proj2 (occurs_In q (ravel R)) (H q Hq)); reflexivity.
Qed.

Lemma in1d_all_false (Q R : ndarray Z) (assume_unique : bool) :
  (forall v, In v (ravel Q) -> ~ In v (ravel R)) ->
  in1d Q R assume_unique false = repeat false (length (ravel Q)) /\
  in1d Q R assume_unique true = repeat true (length (ravel Q)).
Proof.
  intros H. rewrite !in1d_eq, <- !map_const.
  split; apply map_ext_in; intros q Hq;
    rewrite (occurs_false q (ravel R) (H q Hq)); reflexivity.
Qed.

(** X1: every element of an array is found in the array itself:
    [in1d(a, a)] is all true, and all false under [invert], whatever the
    duplicates, the order and the shape of [a]. *)
Theorem in1d_self (a : ndarray Z) (assume_unique : bool) :
  in1d a a assume_unique false = repeat true (length (ravel a)) /\
  in1d a a assume_unique true = repeat false (length (ravel a)).
Proof. apply in1d_all_true. trivial. Qed.

(** X2: when the two arrays share no value, [in1d] is all false, and all
    true under [invert]. *)
Theorem in1d_disjoint (Q R : ndarray Z) (assume_unique : bool) :
  (forall v, In v (ravel Q) -> ~ In v (ravel R)) ->
  in1d Q R assume_unique false = repeat false (length (ravel Q)) /\
  in1d Q R assume_unique true = repeat true (length (ravel Q)).
Proof. apply in1d_all_false. Qed.

Lemma in1d_disjoint_witness :
  in1d (NDArray [2%nat; 2%nat] [1; 3; 3; 5]) (NDArray [3%nat] [2; 4; 2]) false false
  = repeat false (length (ravel (NDArray [2%nat; 2%nat] [1; 3; 3; 5]))) /\
  in1d (NDArray [2%nat; 2%nat] [1; 3; 3; 5]) (NDArray [3%nat] [2; 4; 2]) false true
  = repeat true (length (ravel (NDArray [2%nat; 2%nat] [1; 3; 3; 5]))).
Proof.
  apply (@in1d_disjoint (NDArray [2%nat; 2%nat] [1; 3; 3; 5])
                        (NDArray [3%nat] [2; 4; 2]) false).
  simpl. intros v Hv Hr. lia.
Defined.

(** X3: [in1d] reads the reference array as a set: two reference arrays
    with the same values, in any order, shape and multiplicity, give the
    same result; so sorting or deduplicating the reference beforehand
    changes nothing. *)
Theorem in1d_reference_as_set (Q R R' : ndarray Z) (assume_unique invert : bool) :
  (forall v, In v (ravel R) <-> In v (ravel R')) ->
  in1d Q R assume_unique invert = in1d Q R' assume_unique invert /\
  in1d Q (array1d (unique (ravel R))) assume_unique invert
  = in1d Q R assume_unique invert /\
  in1d Q (array1d (sort (ravel R))) assume_unique invert
  = in1d Q R assume_unique invert.
Proof.
  intros H. rewrite !in1d_eq. cbn [array1d ravel data].
  split; [| split]; apply map_ext; intros q; f_equal; apply occurs_ext.
  - exact H.
  - intros w. apply unique_In.
  - intros w. apply sort_In.
Qed.

Lemma in1d_reference_as_set_witness :
  in1d (NDArray [3%nat] [4; 1; 7]) (NDArray [2%nat; 2%nat] [7; 1; 1; 7]) false false
  = in1d (NDArray [3%nat] [4; 1; 7]) (NDArray [2%nat] [1; 7]) false false /\
  in1d (NDArray [3%nat] [4; 1; 7])
       (array1d (unique (ravel (NDArray [2%nat; 2%nat] [7; 1; 1; 7])))) false false
  = in1d (NDArray [3%nat] [4; 1; 7]) (NDArray [2%nat; 2%nat] [7; 1; 1; 7]) false false /\
  in1d (NDArray [3%nat] [4; 1; 7])
       (array1d (sort (ravel (NDArray [2%nat; 2%nat] [7; 1; 1; 7])))) false false
  = in1d (NDArray [3%nat] [4; 1; 7]) (NDArray [2%nat; 2%nat] [7; 1; 1; 7]) false false.
Proof.
  apply (@in1d_reference_as_set
           (NDArray [3%nat] [4; 1; 7]) (NDArray [2%nat; 2%nat] [7; 1; 1; 7])
           (NDArray [2%nat] [1; 7]) false false).
  simpl. intros v. intuition lia.
Defined.

(** X4: [in1d] distributes over concatenation: on the queries, the result
    of a concatenation is the concatenation of the results; on the
    references, it is the element-wise "or" of the results (the "and" under
    [invert]).  The empty-input shortcut of the source agrees with both. *)
Theorem in1d_concatenate (q1 q2 r1 r2 : list Z) (Q R : ndarray Z)
        (assume_unique invert : bool) :
  in1d (array1d (concatenate q1 q2)) R assume_unique invert
  = in1d (array1d q1) R assume_unique invert
    ++ in1d (array1d q2) R assume_unique invert /\
  in1d Q (array1d (concatenate r1 r2)) assume_unique false
  = zip_with orb (in1d Q (array1d r1) assume_unique false)
                 (in1d Q (array1d r2) assume_unique false) /\
  in1d Q (array1d (concatenate r1 r2)) assume_unique true
  = zip_with andb (in1d Q (array1d r1) assume_unique true)
                  (in1d Q (array1d r2) assume_unique true).
Proof.
  rewrite !in1d_eq. cbn [array1d ravel data]. unfold concatenate.
  split; [apply map_app |].
  rewrite !zip_with_map.
  split; apply map_ext; intros q; unfold occurs; rewrite existsb_app;
    cbn [xorb]; [reflexivity |].
  now destruct (existsb (Z.eqb q) r1), (existsb (Z.eqb q) r2).
Qed.

(** ** More on [intersect1d] *)

Lemma common_values_spec (assume_unique : bool) (arr1 arr2 : ndarray Z) :
  (assume_unique = true -> NoDup (ravel arr1) /\ NoDup (ravel arr2)) ->
  StronglySorted Z.lt (common_values assume_unique arr1 arr2) /\
  (forall v, In v (common_values assume_unique arr1 arr2)
             <-> In v (ravel arr1) /\ In v (ravel arr2)).
Proof.
  intros Hunique. unfold common_values.
  assert (N1 : NoDup (dedup_or_ravel assume_unique arr1))
    by (apply dedup_or_ravel_NoDup; intros H; now apply Hunique).
  assert (N2 : NoDup (dedup_or_ravel assume_unique arr2))
    by (apply dedup_or_ravel_NoDup; intros H; now apply Hunique).
  split; [now apply common_values_sorted |].
  intros v. rewrite (common_values_In v N1 N2). now rewrite !dedup_or_ravel_In.
Qed.

Lemma first_index_unique (v i : Z) (x : list Z) :
  NoDup x -> 0 <= i -> nth_error x (Z.to_nat i) = Some v -> first_index v x = i.
Proof.
  intros Hnd Hi Hn.
  destruct (first_index_spec v x (nth_error_In _ _ Hn)) as [H0 [Hf _]].
  assert (Z.to_nat (first_index v x) = Z.to_nat i); [| lia].
  apply (proj1 (NoDup_nth_error x) Hnd); [| congruence].
  apply nth_error_Some. congruence.
Qed.

(** X5: asking for the indices never changes the values: for every input
    and both values of [assume_unique], also when the uniqueness promise is
    broken, the first array of the tuple returned with
    [return_indices=True] is the array returned without it. *)
Theorem intersect1d_indices_keep_values (a b : ndarray Z) (assume_unique : bool) :
  exists int1d comm1 comm2,
    intersect1d a b assume_unique true = inr (ValuesIndices int1d comm1 comm2) /\
    intersect1d a b assume_unique false = inr (Values int1d).
Proof.
  rewrite intersect1d_values. destruct assume_unique.
  - rewrite intersect1d_assume_unique_indices. eexists _, _, _. split; reflexivity.
  - rewrite intersect1d_unique_indices. eexists _, _, _. split; reflexivity.
Qed.

(** On duplicate-free inputs the positions found in the concatenation are
    the first positions of the values. *)
Lemma assume_unique_indices_first (arr1 arr2 : ndarray Z) :
  NoDup (ravel arr1) -> NoDup (ravel arr2) ->
  intersect1d arr1 arr2 true true
  = inr (ValuesIndices
           (common_values true arr1 arr2)
           (map (fun v => first_index v (ravel arr1)) (common_values true arr1 arr2))
           (map (fun v => first_index v (ravel arr2)) (common_values true arr1 arr2))).
Proof.
  intros N1 N2. rewrite intersect1d_assume_unique_indices.
  pose proof (matches_cross N1 N2) as Hcross. rewrite Forall_forall in Hcross.
  unfold common_values, dedup_or_ravel. rewrite int1d_tagged, !map_map.
  do 2 f_equal; apply map_ext_in; intros pq Hpq;
    destruct (Hcross pq Hpq) as [Hi [Hj [Hn1 Hn2]]]; symmetry;
    apply first_index_unique; solve [assumption | lia].
Qed.

(** X6: on duplicate-free inputs [assume_unique] changes nothing: with and
    without it, and with and without [return_indices], the results are the
    same, index arrays included. *)
Theorem intersect1d_assume_unique_agrees (a b : ndarray Z) (return_indices : bool) :
  NoDup (ravel a) -> NoDup (ravel b) ->
  intersect1d a b true return_indices = intersect1d a b false return_indices.
Proof.
  intros N1 N2.
  assert (Hv : common_values true a b = common_values false a b).
  { destruct (@common_values_spec true a b) as [S1 M1]; [now split |].
    destruct (@common_values_spec false a b) as [S2 M2]; [discriminate |].
    apply StronglySorted_lt_ext; [exact S1 | exact S2 |].
    intros v. now rewrite M1, M2. }
  destruct return_indices.
  - rewrite (@assume_unique_indices_first a b N1 N2), intersect1d_unique_indices.
    now rewrite Hv.
  - rewrite !intersect1d_values. now rewrite Hv.
Qed.

Lemma intersect1d_assume_unique_agrees_witness :
  intersect1d (NDArray [2%nat; 2%nat] [7; 1; 5; 3]) (NDArray [3%nat] [5; 9; 7]) true true
  = intersect1d (NDArray [2%nat; 2%nat] [7; 1; 5; 3]) (NDArray [3%nat] [5; 9; 7]) false true.
Proof.
  apply (@intersect1d_assume_unique_agrees
           (NDArray [2%nat; 2%nat] [7; 1; 5; 3]) (NDArray [3%nat] [5; 9; 7]) true);
    simpl; solve_NoDup.
Defined.

Lemma intersect1d_closed_form (a b : ndarray Z) (assume_unique return_indices : bool) :
  (assume_unique = true -> NoDup (ravel a) /\ NoDup (ravel b)) ->
  intersect1d a b assume_unique return_indices
  = inr (if return_indices
         then ValuesIndices
                (common_values assume_unique a b)
                (map (fun v => first_index v (ravel a)) (common_values assume_unique a b))
                (map (fun v => first_index v (ravel b)) (common_values assume_unique a b))
         else Values (common_values assume_unique a b)).
Proof.
  intros Hunique. destruct return_indices; [| apply intersect1d_values].
  destruct assume_unique; [| apply intersect1d_unique_indices].
  destruct (Hunique eq_refl) as [N1 N2]. now apply assume_unique_indices_first.
Qed.

Lemma common_values_comm (assume_unique : bool) (a b : ndarray Z) :
  (assume_unique = true -> NoDup (ravel a) /\ NoDup (ravel b)) ->
  common_values assume_unique a b = common_values assume_unique b a.
Proof.
  intros Hunique.
  destruct (@common_values_spec assume_unique a b Hunique) as [S1 M1].
  destruct (@common_values_spec assume_unique b a) as [S2 M2].
  { intros H. destruct (Hunique H). now split. }
  apply StronglySorted_lt_ext; [exact S1 | exact S2 |].
  intros v. rewrite M1, M2. tauto.
Qed.

(** X7: [intersect1d] is symmetric: exchanging the inputs gives the same
    values, and exchanges the two index arrays (the inputs duplicate-free
    when [assume_unique] is set). *)
Theorem intersect1d_symmetric (a b : ndarray Z) (assume_unique return_indices : bool) :
  (assume_unique = true -> NoDup (ravel a) /\ NoDup (ravel b)) ->
  exists r,
    intersect1d a b assume_unique return_indices = inr r /\
    intersect1d b a assume_unique return_indices = inr (swap_indices r).
Proof.
  intros Hunique.
  rewrite (@intersect1d_closed_form a b assume_unique return_indices Hunique).
  rewrite (@intersect1d_closed_form b a assume_unique return_indices)
    by (intros H; destruct (Hunique H); now split).
  rewrite (@common_values_comm assume_unique a b Hunique).
  eexists. split; [reflexivity |]. now destruct return_indices.
Qed.

Lemma intersect1d_symmetric_witness :
  exists r,
    intersect1d (NDArray [2%nat; 2%nat] [7; 1; 5; 3]) (NDArray [3%nat] [5; 9; 7]) true true
    = inr r /\
    intersect1d (NDArray [3%nat] [5; 9; 7]) (NDArray [2%nat; 2%nat] [7; 1; 5; 3]) true true
    = inr (swap_indices r).
Proof.
  apply (@intersect1d_symmetric
           (NDArray [2%nat; 2%nat] [7; 1; 5; 3]) (NDArray [3%nat] [5; 9; 7]) true true).
  intros _. split; simpl; solve_NoDup.
Defined.

(** X8: the intersection of an array with itself is its sorted distinct
    values, and with [return_indices=True] both index arrays are the
    first-occurrence indices that [unique] returns. *)
Theorem intersect1d_self (a : ndarray Z) :
  intersect1d a a false false = inr (Values (unique (ravel a))) /\
  intersect1d a a false true
  = inr (ValuesIndices (fst (unique_return_index (ravel a)))
                       (snd (unique_return_index (ravel a)))
                       (snd (unique_return_index (ravel a)))).
Proof.
  assert (Hv : common_values false a a = unique (ravel a)).
  { destruct (@common_values_spec false a a) as [S M]; [discriminate |].
    apply StronglySorted_lt_ext; [exact S | apply unique_sorted |].
    intros v. rewrite M, unique_In. tauto. }
  rewrite intersect1d_values, intersect1d_unique_indices, Hv.
  split; reflexivity.
Qed.

(** X9: [intersect1d] is [in1d] used as a filter: its values are the
    sorted distinct values of the first input that [in1d] finds in the
    second. *)
Theorem intersect1d_filters_by_in1d (a b : ndarray Z) (flag : bool) :
  intersect1d a b false false
  = inr (Values (compress (in1d (array1d (unique (ravel a))) b flag false)
                          (unique (ravel a)))).
Proof.
  rewrite intersect1d_values. do 2 f_equal.
  rewrite in1d_eq. cbn [array1d ravel data xorb].
  rewrite <- (map_id (unique (data a))) at 2.
  rewrite compress_map_filter, map_id.
  destruct (@common_values_spec false a b) as [S M]; [discriminate |].
  apply StronglySorted_lt_ext;
    [exact S | apply StronglySorted_lt_filter, unique_sorted |].
  intros v. rewrite M, filter_In, unique_In, occurs_In. reflexivity.
Qed.

Lemma count_occ_NoDup (l : list Z) (z : Z) :
  NoDup l ->
  count_occ Z.eq_dec l z = (if in_dec Z.eq_dec z l then 1 else 0)%nat.
Proof.
  intros H. destruct (in_dec Z.eq_dec z l) as [Hin | Hout].
  - now apply NoDup_count_occ'.
  - now apply count_occ_not_In.
Qed.

Lemma union1d_In (a b : ndarray Z) (v : Z) :
  In v (union1d a b) <-> In v (ravel a) \/ In v (ravel b).
Proof. unfold union1d, concatenate. rewrite unique_In. apply in_app_iff. Qed.

(** X10: inclusion and exclusion: the distinct values of the two inputs
    number as many as the values of their union and of their intersection
    together. *)
Theorem union1d_intersect1d_count (a b : ndarray Z) :
  exists int1d,
    intersect1d a b false false = inr (Values int1d) /\
    (length (union1d a b) + length int1d
     = length (unique (ravel a)) + length (unique (ravel b)))%nat.
Proof.
  rewrite intersect1d_values. eexists. split; [reflexivity |].
  destruct (@common_values_spec false a b) as [S M]; [discriminate |].
  rewrite <- !length_app. apply Permutation_length.
  apply (Permutation_count_occ Z.eq_dec). intros z. rewrite !count_occ_app.
  rewrite !count_occ_NoDup
    by first [apply unique_NoDup | exact (StronglySorted_lt_NoDup S)].
  pose proof (union1d_In a b z) as Mu. pose proof (M z) as Mi.
  pose proof (unique_In (ravel a) z) as Ma. pose proof (unique_In (ravel b) z) as Mb.
  destruct (in_dec Z.eq_dec z (union1d a b)),
    (in_dec Z.eq_dec z (common_values false a b)),
    (in_dec Z.eq_dec z (unique (ravel a))),
    (in_dec Z.eq_dec z (unique (ravel b))); try reflexivity; exfalso; tauto.
Qed.

(** X11: when the inputs share no value the intersection is empty, and so
    are the two index arrays (the inputs duplicate-free when
    [assume_unique] is set). *)
Theorem intersect1d_disjoint (a b : ndarray Z) (assume_unique : bool) :
  (forall v, In v (ravel a) -> ~ In v (ravel b)) ->
  (assume_unique = true -> NoDup (ravel a) /\ NoDup (ravel b)) ->
  intersect1d a b assume_unique false = inr (Values []) /\
  intersect1d a b assume_unique true = inr (ValuesIndices [] [] []).
Proof.
  intros Hdisj Hunique.
  rewrite !(@intersect1d_closed_form a b assume_unique _ Hunique).
  destruct (@common_values_spec assume_unique a b Hunique) as [_ M].
  destruct (common_values assume_unique a b) as [|v V]; [split; reflexivity |].
  exfalso. destruct (proj1 (M v) (or_introl eq_refl)) as [Ha Hb].
  exact (Hdisj v Ha Hb).
Qed.

Lemma intersect1d_disjoint_witness :
  intersect1d (NDArray [3%nat] [5; 1; 3]) (NDArray [2%nat] [4; 2]) true false
  = inr (Values []) /\
  intersect1d (NDArray [3%nat] [5; 1; 3]) (NDArray [2%nat] [4; 2]) true true
  = inr (ValuesIndices [] [] []).
Proof.
  apply (@intersect1d_disjoint (NDArray [3%nat] [5; 1; 3]) (NDArray [2%nat] [4; 2]) true).
  - simpl. intros v Hv Hr. lia.
  - intros _. split; simpl; solve_NoDup.
Defined.

(** ** More on [union1d] *)

(** X12: [union1d] is symmetric and associative, and a union is left
    unchanged by a further union with itself: its result is already sorted
    and distinct. *)
Theorem union1d_algebra (a b c : ndarray Z) :
  union1d a b = union1d b a /\
  union1d (array1d (union1d a b)) c = union1d a (array1d (union1d b c)) /\
  union1d (array1d (union1d a b)) (array1d (union1d a b)) = union1d a b.
Proof.
  split; [| split]; apply StronglySorted_lt_ext; try apply unique_sorted;
    intros v; rewrite ?union1d_In; cbn [array1d ravel data];
    rewrite ?union1d_In; tauto.
Qed.

(** X13: membership composes with the set routines: every element of an
    input is found in the union, every value of the intersection is found
    in both inputs, and against a union [in1d] is the element-wise "or" of
    [in1d] against the two arrays. *)
Theorem in1d_of_union_and_intersection (Q a b : ndarray Z) (flag : bool) :
  in1d a (array1d (union1d a b)) flag false = repeat true (length (ravel a)) /\
  in1d b (array1d (union1d a b)) flag false = repeat true (length (ravel b)) /\
  in1d Q (array1d (union1d a b)) flag false
  = zip_with orb (in1d Q a flag false) (in1d Q b flag false) /\
  exists int1d,
    intersect1d a b false false = inr (Values int1d) /\
    in1d (array1d int1d) a flag false = repeat true (length int1d) /\
    in1d (array1d int1d) b flag false = repeat true (length int1d).
Proof.
  split; [| split; [| split]].
  - apply in1d_all_true. intros v Hv. cbn [array1d ravel data].
    apply union1d_In. now left.
  - apply in1d_all_true. intros v Hv. cbn [array1d ravel data].
    apply union1d_In. now right.
  - rewrite !in1d_eq, zip_with_map. cbn [array1d ravel data xorb].
    apply map_ext. intros q.
    rewrite (@occurs_ext q (union1d a b) (ravel a ++ ravel b))
      by (intros w; rewrite union1d_In; symmetry; apply in_app_iff).
    unfold occurs. apply existsb_app.
  - rewrite intersect1d_values. eexists. split; [reflexivity |].
    destruct (@common_values_spec false a b) as [_ M]; [discriminate |].
    split; apply in1d_all_true; intros v Hv; cbn [array1d ravel data] in Hv;
      apply M in Hv; tauto.
Qed.

(** ** More on [isin] *)

(** X14: the empty-input shortcut seen through [isin]: when [element] or
    [test_elements] has no element, the result is the all-false array of
    the shape of [element], and the all-true one under [invert]. *)
Theorem isin_empty_input (x y : ndarray Z) (assume_unique : bool) :
  wf_ndarray x ->
  ravel x = [] \/ ravel y = [] ->
  isin x y assume_unique false
  = inr (NDArray (shape x) (repeat false (length (data x)))) /\
  isin x y assume_unique true
  = inr (NDArray (shape x) (repeat true (length (data x)))).
Proof.
  intros Hwf Hempty. unfold isin.
  assert (H : in1d x y assume_unique false = repeat false (length (data x)) /\
              in1d x y assume_unique true = repeat true (length (data x))).
  { unfold in1d, zeros, ones, ravel in *.
    destruct Hempty as [H | H]; rewrite H; simpl; [now split |].
    rewrite Bool.orb_true_r. now split. }
  destruct H as [-> ->].
  rewrite !reshape_same_size by (now rewrite repeat_length).
  split; reflexivity.
Qed.

Lemma isin_empty_input_witness :
  isin (NDArray [2%nat; 2%nat] [4; 1; 9; 1]) (NDArray [0%nat; 3%nat] []) false false
  = inr (NDArray (shape (NDArray [2%nat; 2%nat] [4; 1; 9; 1]))
                 (repeat false (length (data (NDArray [2%nat; 2%nat] [4; 1; 9; 1]))))) /\
  isin (NDArray [2%nat; 2%nat] [4; 1; 9; 1]) (NDArray [0%nat; 3%nat] []) false true
  = inr (NDArray (shape (NDArray [2%nat; 2%nat] [4; 1; 9; 1]))
                 (repeat true (length (data (NDArray [2%nat; 2%nat] [4; 1; 9; 1]))))).
Proof.
  apply (@isin_empty_input
           (NDArray [2%nat; 2%nat] [4; 1; 9; 1]) (NDArray [0%nat; 3%nat] []) false).
  - reflexivity.
  - right. reflexivity.
Defined.

(** ** More on [all] and [any] *)



(** X16: which reduction runs: [all] and [any] dispatch at most one
    reduction; the argument check runs exactly outside fusion; a value is
    only ever returned by a dispatched reduction; the fused kernel runs
    only in fusion without [keepdims], and the method of the array only
    outside fusion after a successful check. *)
Theorem reductions_dispatch
        {Arr Axis Res : Type} (rt : runtime Arr Axis Res)
        (a : Arr) (axis : option Axis) (out : option Arr) (keepdims : bool) :
  dispatch_discipline rt KernelAll a keepdims (all rt a axis out keepdims) /\
  dispatch_discipline rt KernelAny a keepdims (any rt a axis out keepdims).
Proof.
  unfold dispatch_discipline, all, any.
  split;
    destruct (is_fusing rt), keepdims; try destruct (check_array rt a) as [e | u];
    cbn [fst snd dispatched filter length In];
    (split; [lia |]);
    (split; [intuition discriminate |]);
    (split; [intros v Hv; first [discriminate | reflexivity] |]);
    (split; intros k';
       (split;
          [ intros H; repeat destruct H as [H | H]; try discriminate;
            try contradiction;
            inversion H; subst; repeat split; eauto
          | intros [-> [H1 H2]]; try discriminate;
            try (destruct H2; discriminate); auto ])).
Qed.

(** ** More on the store *)

Lemma keeps_in1d_fresh (n : nat) (ar1 ar2 : Store.array) (assume_unique invert : bool) :
  keeps n (Store.in1d ar1 ar2 assume_unique invert) (fresh n).
Proof.
  unfold Store.in1d.
  destruct (_ || _).
  - destruct invert; eauto with keeps.
  - do 3 keeps_step. destruct invert; eauto with keeps.
Qed.

Lemma keeps_isin_fresh (n : nat) (element test_elements : Store.array)
      (assume_unique invert : bool) :
  keeps n (Store.isin element test_elements assume_unique invert) (fresh n).
Proof.
  unfold Store.isin.
  eapply keeps_bind; [apply keeps_in1d_fresh | intros r Hr].
  unfold Store.ndarray_reshape.
  destruct (Nat.eqb _ _); [now apply keeps_ret | apply keeps_raise].
Qed.

Lemma keeps_union1d_fresh (n : nat) (arr1 arr2 : Store.array) :
  keeps n (Store.union1d arr1 arr2) (fresh n).
Proof. unfold Store.union1d. keeps_step. eauto with keeps. Qed.

Lemma keeps_intersect1d_fresh (n : nat) (arr1 arr2 : Store.array)
      (assume_unique return_indices : bool) :
  keeps n (Store.intersect1d arr1 arr2 assume_unique return_indices)
        (fresh_result n).
Proof.
  unfold Store.intersect1d.
  eapply keeps_bind with (P := fun _ => True).
  { destruct assume_unique; cbn [negb]; [now apply keeps_ret |].
    destruct return_indices; do 2 keeps_step; now apply keeps_ret. }
  intros [[a1 ind1] [a2 ind2]] _.
  eapply keeps_bind; [apply keeps_cupy_concatenate | intros aux Haux].
  eapply keeps_bind with (P := fun _ => True).
  { destruct return_indices.
    - do 2 keeps_step. now apply keeps_ret.
    - eapply keeps_bind; [now apply keeps_ndarray_sort | intros ? ?].
      now apply keeps_ret. }
  intros [aux' perm] _.
  do 2 keeps_step.
  destruct return_indices; [| now apply keeps_ret].
  do 4 keeps_step.
  destruct assume_unique; cbn [negb];
    [apply keeps_ret; cbn [fresh_result]; auto |].
  do 4 keeps_step. apply keeps_ret. cbn [fresh_result]. auto.
Qed.

(** X17: what the routines return is new: every array returned by [in1d],
    [isin], [union1d] and [intersect1d] lies on a buffer allocated during
    the call, so a result is never a view of an array of the caller, also
    when [assume_unique] lets the inputs through without a copy. *)
Theorem results_are_new_arrays
        (s : Store.store) (a b : Store.array)
        (assume_unique invert return_indices : bool) :
  (forall r, fst (Store.in1d a b assume_unique invert s) = inr r ->
             fresh (length s) r) /\
  (forall r, fst (Store.isin a b assume_unique invert s) = inr r ->
             fresh (length s) r) /\
  (forall r, fst (Store.union1d a b s) = inr r -> fresh (length s) r) /\
  (forall r, fst (Store.intersect1d a b assume_unique return_indices s) = inr r ->
             fresh_result (length s) r).
Proof.
  split; [| split; [| split]].
  - apply (@keeps_in1d_fresh (length s) a b assume_unique invert s (le_n _)).
  - apply (@keeps_isin_fresh (length s) a b assume_unique invert s (le_n _)).
  - apply (@keeps_union1d_fresh (length s) a b s (le_n _)).
  - apply (@keeps_intersect1d_fresh (length s) a b assume_unique return_indices
                                    s (le_n _)).
Qed.

(** X18: on arrays that are in memory the four routines return: no name
    is read before it is bound, no gather leaves its array, no buffer is
    read at the wrong type; and the arrays returned hold what the routines
    compute on the elements. *)
Theorem store_routines_return
        (s : Store.store) (a b : Store.array) (x y : list Z)
        (assume_unique invert return_indices : bool) :
  holds_int s a x -> holds_int s b y ->
  (exists r,
     fst (Store.in1d a b assume_unique invert s) = inr r /\
     holds_bool (snd (Store.in1d a b assume_unique invert s)) r
                (in1d (NDArray (Store.ashape a) x) (NDArray (Store.ashape b) y)
                      assume_unique invert)) /\
  (exists r v,
     fst (Store.isin a b assume_unique invert s) = inr r /\
     isin (NDArray (Store.ashape a) x) (NDArray (Store.ashape b) y)
          assume_unique invert = inr v /\
     Store.ashape r = shape v /\
     holds_bool (snd (Store.isin a b assume_unique invert s)) r (data v)) /\
  (exists r,
     fst (Store.union1d a b s) = inr r /\
     holds_int (snd (Store.union1d a b s)) r
               (union1d (NDArray (Store.ashape a) x) (NDArray (Store.ashape b) y))) /\
  (exists r v,
     intersect1d (NDArray (Store.ashape a) x) (NDArray (Store.ashape b) y)
                 assume_unique return_indices = inr v /\
     fst (Store.intersect1d a b assume_unique return_indices s) = inr r /\
     result_holds (snd (Store.intersect1d a b assume_unique return_indices s)) r v).
Proof.
  intros Ha Hb. split; [| split; [| split]].
  - exact (store_in1d_refines assume_unique invert Ha Hb).
  - exact (store_isin_refines assume_unique invert Ha Hb).
  - exact (store_union1d_refines Ha Hb).
  - exact (store_intersect1d_returns assume_unique return_indices Ha Hb).
Qed.

Lemma store_routines_return_witness :
  (exists r,
     fst (Store.in1d (Store.Array 0 0 [4%nat]) (Store.Array 1 0 [3%nat]) false false
            [Store.IntBuffer [1; 2; 2; 3]; Store.IntBuffer [2; 3; 4]]) = inr r /\
     holds_bool
       (snd (Store.in1d (Store.Array 0 0 [4%nat]) (Store.Array 1 0 [3%nat]) false false
               [Store.IntBuffer [1; 2; 2; 3]; Store.IntBuffer [2; 3; 4]])) r
       (in1d (NDArray (Store.ashape (Store.Array 0 0 [4%nat])) [1; 2; 2; 3])
             (NDArray (Store.ashape (Store.Array 1 0 [3%nat])) [2; 3; 4])
             false false)) /\
  (exists r v,
     fst (Store.isin (Store.Array 0 0 [4%nat]) (Store.Array 1 0 [3%nat]) false false
            [Store.IntBuffer [1; 2; 2; 3]; Store.IntBuffer [2; 3; 4]]) = inr r /\
     isin (NDArray (Store.ashape (Store.Array 0 0 [4%nat])) [1; 2; 2; 3])
          (NDArray (Store.ashape (Store.Array 1 0 [3%nat])) [2; 3; 4])
          false false = inr v /\
     Store.ashape r = shape v /\
     holds_bool
       (snd (Store.isin (Store.Array 0 0 [4%nat]) (Store.Array 1 0 [3%nat]) false false
               [Store.IntBuffer [1; 2; 2; 3]; Store.IntBuffer [2; 3; 4]])) r (data v)) /\
  (exists r,
     fst (Store.union1d (Store.Array 0 0 [4%nat]) (Store.Array 1 0 [3%nat])
            [Store.IntBuffer [1; 2; 2; 3]; Store.IntBuffer [2; 3; 4]]) = inr r /\
     holds_int
       (snd (Store.union1d (Store.Array 0 0 [4%nat]) (Store.Array 1 0 [3%nat])
               [Store.IntBuffer [1; 2; 2; 3]; Store.IntBuffer [2; 3; 4]])) r
       (union1d (NDArray (Store.ashape (Store.Array 0 0 [4%nat])) [1; 2; 2; 3])
                (NDArray (Store.ashape (Store.Array 1 0 [3%nat])) [2; 3; 4]))) /\
  (exists r v,
     intersect1d (NDArray (Store.ashape (Store.Array 0 0 [4%nat])) [1; 2; 2; 3])
                 (NDArray (Store.ashape (Store.Array 1 0 [3%nat])) [2; 3; 4])
                 false true = inr v /\
     fst (Store.intersect1d (Store.Array 0 0 [4%nat]) (Store.Array 1 0 [3%nat])
            false true
            [Store.IntBuffer [1; 2; 2; 3]; Store.IntBuffer [2; 3; 4]]) = inr r /\
     result_holds
       (snd (Store.intersect1d (Store.Array 0 0 [4%nat]) (Store.Array 1 0 [3%nat])
               false true
               [Store.IntBuffer [1; 2; 2; 3]; Store.IntBuffer [2; 3; 4]])) r v).
Proof.
  apply (@store_routines_return
           [Store.IntBuffer [1; 2; 2; 3]; Store.IntBuffer [2; 3; 4]]
           (Store.Array 0 0 [4%nat]) (Store.Array 1 0 [3%nat])
           [1; 2; 2; 3] [2; 3; 4] false false true);
    (eexists; repeat split).
Defined.

(** ** The shortcut of [in1d] and the indices of [intersect1d] *)

(** X19: the early return of [in1d] on an empty input is a shortcut only:
    for every input, empty or not, the result is what the sort and the two
    searches give. *)
Theorem in1d_shortcut_agrees (Q R : ndarray Z) (assume_unique invert : bool) :
  in1d Q R assume_unique invert
  = if invert
    then zip_with Z.eqb
           (searchsorted (sort (ravel R)) (ravel Q) SideLeft)
           (searchsorted (sort (ravel R)) (ravel Q) SideRight)
    else zip_with (fun i j => negb (i =? j))
           (searchsorted (sort (ravel R)) (ravel Q) SideLeft)
           (searchsorted (sort (ravel R)) (ravel Q) SideRight).
Proof.
  unfold in1d.
  destruct (Nat.eqb_spec (length (ravel Q)) 0) as [H1 | H1]; cbn [orb].
  - apply length_zero_iff_nil in H1. rewrite H1. now destruct invert.
  - destruct (Nat.eqb_spec (length (ravel R)) 0) as [H2 | H2]; [| reflexivity].
    apply length_zero_iff_nil in H2. rewrite H2. unfold searchsorted, ones, zeros.
    cbn [sort fold_right insertion_point].
    destruct invert; rewrite zip_with_map; cbn [Z.eqb negb]; symmetry; apply map_const.
Qed.

(** X20: for both values of [assume_unique] (the inputs duplicate-free
    when it is set), the index arrays locate the values: position [k] of
    each holds a valid position of its flattened input, where the [k]-th
    returned value sits; and no position is returned twice. *)
Theorem intersect1d_indices_locate_values (a b : ndarray Z) (assume_unique : bool) :
  (assume_unique = true -> NoDup (ravel a) /\ NoDup (ravel b)) ->
  exists int1d comm1 comm2,
    intersect1d a b assume_unique true = inr (ValuesIndices int1d comm1 comm2) /\
    NoDup comm1 /\ NoDup comm2 /\
    forall k v, nth_error int1d k = Some v ->
      exists i j,
        nth_error comm1 k = Some i /\ nth_error comm2 k = Some j /\
        0 <= i < Z.of_nat (length (ravel a)) /\
        0 <= j < Z.of_nat (length (ravel b)) /\
        nth_error (ravel a) (Z.to_nat i) = Some v /\
        nth_error (ravel b) (Z.to_nat j) = Some v.
Proof.
  intros Hunique.
  rewrite (@intersect1d_closed_form a b assume_unique true Hunique).
  destruct (@common_values_spec assume_unique a b Hunique) as [S M].
  eexists _, _, _. split; [reflexivity |].
  assert (Hloc : forall (x : list Z) v, In v x ->
            0 <= first_index v x < Z.of_nat (length x) /\
            nth_error x (Z.to_nat (first_index v x)) = Some v).
  { intros x v Hv. destruct (first_index_spec v x Hv) as [H0 [Hn _]].
    split; [| exact Hn].
    assert (Z.to_nat (first_index v x) < length x)%nat
      by (apply nth_error_Some; congruence).
    lia. }
  assert (Hinj : forall (x : list Z),
            (forall v, In v (common_values assume_unique a b) -> In v x) ->
            NoDup (map (fun v => first_index v x) (common_values assume_unique a b))).
  { intros x Hx. apply NoDup_map_NoDup_ForallPairs;
      [| exact (StronglySorted_lt_NoDup S)].
    intros v w Hv Hw Heq.
    destruct (Hloc x v (Hx v Hv)) as [_ Nv]. destruct (Hloc x w (Hx w Hw)) as [_ Nw].
    rewrite Heq in Nv. congruence. }
  split; [apply Hinj; intros v Hv; now apply M in Hv |].
  split; [apply Hinj; intros v Hv; now apply M in Hv |].
  intros k v Hk.
  destruct (proj1 (M v) (nth_error_In _ _ Hk)) as [Ha Hb].
  destruct (Hloc _ v Ha) as [Ra Na]. destruct (Hloc _ v Hb) as [Rb Nb].
  exists (first_index v (ravel a)), (first_index v (ravel b)).
  rewrite !nth_error_map, Hk. cbn [option_map].
  repeat split; solve [assumption | lia].
Qed.

Lemma intersect1d_indices_locate_values_witness :
  exists int1d comm1 comm2,
    intersect1d (NDArray [2%nat; 2%nat] [7; 1; 5; 3]) (NDArray [3%nat] [5; 9; 7]) true true
    = inr (ValuesIndices int1d comm1 comm2) /\
    NoDup comm1 /\ NoDup comm2 /\
    forall k v, nth_error int1d k = Some v ->
      exists i j,
        nth_error comm1 k = Some i /\ nth_error comm2 k = Some j /\
        0 <= i < Z.of_nat (length (ravel (NDArray [2%nat; 2%nat] [7; 1; 5; 3]))) /\
        0 <= j < Z.of_nat (length (ravel (NDArray [3%nat] [5; 9; 7]))) /\
        nth_error (ravel (NDArray [2%nat; 2%nat] [7; 1; 5; 3])) (Z.to_nat i) = Some v /\
        nth_error (ravel (NDArray [3%nat] [5; 9; 7])) (Z.to_nat j) = Some v.
Proof.
  apply (@intersect1d_indices_locate_values
           (NDArray [2%nat; 2%nat] [7; 1; 5; 3]) (NDArray [3%nat] [5; 9; 7]) true).
  intros _. split; simpl; solve_NoDup.
Defined.
